(** * A trace-driven set-associative cache simulator

    Shallow embedding of the two C++ sources of the repository,

    - [IMT2023048_031_045_Code.cpp]: on an access only the line that is hit or
      installed gets a new [LRUcount] (policy [TouchOnly] below);
    - [modified.cpp]: the same program, except that after every access the
      [LRUcount] of every other valid line of the set is incremented
      (policy [FullOrder] below).

    The two files agree on everything else, so the embedding is one
    development with the policy as a parameter of [CacheAccess].

    Conventions.
    - [uint32_t] values are integers in [0, 2^32); arithmetic on them is
      reduced with [to_uint32].
    - [int] values are integers in [-2^31, 2^31); arithmetic on them is
      reduced with [to_int] (two's complement, what the compiled program
      does; statements about counter values are made for runs in which no
      [int] leaves its range).
    - a [uint32_t] shifted right by 32 bits or more is undefined in C++; the
      compiled program shifts by the count modulo 32, and so does [getTag].
    - [vector::operator[]] outside the vector, an integer division by zero
      and a vector constructed with a negative size do not return: the
      functions below answer [None] there.
    - [double] is the kernel's binary64 ([PrimFloat]). *)

From Stdlib Require Import ZArith Lia Bool.
From Stdlib Require Import Floats.PrimFloat.
From Stdlib Require Import Numbers.Cyclic.Int63.Uint63.
From stdpp Require Import base option list strings.

Local Open Scope Z_scope.

(** ** Machine integers *)

Definition UINT32_MAX : Z := 4294967295.
Definition INT_MAX : Z := 2147483647.

(** Conversion to [uint32_t]. *)
Definition to_uint32 (z : Z) : Z := z mod 2 ^ 32.

(** Conversion to [int] (two's complement). *)
Definition to_int (z : Z) : Z := (z + 2 ^ 31) mod 2 ^ 32 - 2 ^ 31.

(** [(uint32_t)log2(x)]: the argument is converted to [double], which holds
    every [uint32_t] exactly, and the truncated logarithm of an [x] in
    [1, 2^32) is the position of its highest set bit. *)
Definition log2_uint32 (x : Z) : Z := Z.log2 x.

(** [(double)n] for an [int] [n]: exact, since |n| <= 2^31. *)
Definition double_of_int (n : Z) : float :=
  if n <? 0 then PrimFloat.opp (PrimFloat.of_uint63 (Uint63.of_Z (- n)))
  else PrimFloat.of_uint63 (Uint63.of_Z n).

(** ** Data *)

(** [struct CacheLine]; the constructor gives [default_line]. *)
Record CacheLine := mkCacheLine {
  valid : bool;
  tag : Z;
  LRUcount : Z
}.

Definition default_line : CacheLine :=
  {| valid := false; tag := 0; LRUcount := 0 |}.

(** [struct CacheMem] ([CacheSet] in modified.cpp): the lines of one set. *)
Record CacheMem := mkCacheMem {
  lines : list CacheLine
}.

Definition new_CacheMem (associativity : nat) : CacheMem :=
  {| lines := replicate associativity default_line |}.

(** The global variables [hit], [miss] and [accesscount]. *)
Record Globals := mkGlobals {
  hit : Z;
  miss : Z;
  accesscount : Z
}.

Definition globals0 : Globals := {| hit := 0; miss := 0; accesscount := 0 |}.

(** The two sources. *)
Inductive policy := TouchOnly | FullOrder.

(** ** Address decoding *)

Definition getIndex (address blockSize cacheLineNum : Z) : Z :=
  let offsetBits := log2_uint32 blockSize in
  let indexBits := log2_uint32 cacheLineNum in
  Z.land (Z.shiftr address offsetBits)
         (to_uint32 (to_int (to_int (Z.shiftl 1 indexBits) - 1))).

(** The shift count [offsetBits + indexBits] reaches 32 when the block size
    times the set count reaches 2^32; the shift of the 32-bit [address] then
    takes the count modulo 32. *)
Definition getTag (address blockSize cacheLineNum : Z) : Z :=
  let offsetBits := log2_uint32 blockSize in
  let indexBits := log2_uint32 cacheLineNum in
  Z.shiftr address (to_uint32 (offsetBits + indexBits) mod 32).

(** ** One access *)

(** The first loop of [CacheAccess], from index [i] with [fuel] iterations
    left: the index of the first valid line holding [tg], if any. *)
Fixpoint hit_scan (fuel i : nat) (ls : list CacheLine) (tg : Z)
  : option (option nat) :=
  match fuel with
  | O => Some None
  | S fuel' =>
      l ← ls !! i;
      if valid l && (tag l =? tg) then Some (Some i)
      else hit_scan fuel' (S i) ls tg
  end.

(** The second loop of [CacheAccess]: the final value of [tracker]. The
    comparison [LRUcount < minUsed] is between an [int] and a [uint32_t],
    hence unsigned. *)
Fixpoint miss_scan (fuel i : nat) (ls : list CacheLine) (tracker : nat)
    (minUsed : Z) : option nat :=
  match fuel with
  | O => Some tracker
  | S fuel' =>
      l ← ls !! i;
      if negb (valid l) then Some i
      else if to_uint32 (LRUcount l) <? minUsed
           then miss_scan fuel' (S i) ls i (to_uint32 (LRUcount l))
           else miss_scan fuel' (S i) ls tracker minUsed
  end.

(** [lines[j].LRUcount++]. *)
Definition bump (l : CacheLine) : CacheLine :=
  {| valid := valid l; tag := tag l; LRUcount := to_int (LRUcount l + 1) |}.

(** The loop "Update LRU counts for all lines" of modified.cpp; [skip] is the
    line that was hit or installed. *)
Fixpoint age_others (fuel j skip : nat) (ls : list CacheLine)
  : option (list CacheLine) :=
  match fuel with
  | O => Some ls
  | S fuel' =>
      if (skip =? j)%nat then age_others fuel' (S j) skip ls
      else
        l ← ls !! j;
        age_others fuel' (S j) skip (if valid l then <[j := bump l]> ls else ls)
  end.

Definition update_others (p : policy) (n skip : nat) (ls : list CacheLine)
  : option (list CacheLine) :=
  match p with
  | TouchOnly => Some ls
  | FullOrder => age_others n O skip ls
  end.

Definition CacheAccess (p : policy) (address : Z) (cache : list CacheMem)
    (setAssociativity blockSize cacheLineNum : Z) (g : Globals)
  : option (Globals * list CacheMem) :=
  let index := Z.to_nat (getIndex address blockSize cacheLineNum) in
  let tg := getTag address blockSize cacheLineNum in
  let n := Z.to_nat setAssociativity in
  cachemem ← cache !! index;
  found ← hit_scan n O (lines cachemem) tg;
  match found with
  | Some i =>
      l ← lines cachemem !! i;
      let ls1 := <[i := {| valid := valid l; tag := tag l;
                           LRUcount := accesscount g |}]> (lines cachemem) in
      ls2 ← update_others p n i ls1;
      Some ({| hit := to_int (hit g + 1); miss := miss g;
               accesscount := to_int (accesscount g + 1) |},
            <[index := {| lines := ls2 |}]> cache)
  | None =>
      tracker ← miss_scan n O (lines cachemem) O UINT32_MAX;
      _ ← lines cachemem !! tracker;
      let ls1 := <[tracker := {| valid := true; tag := tg;
                                 LRUcount := accesscount g |}]> (lines cachemem) in
      ls2 ← update_others p n tracker ls1;
      Some ({| hit := hit g; miss := to_int (miss g + 1);
               accesscount := to_int (accesscount g + 1) |},
            <[index := {| lines := ls2 |}]> cache)
  end.

(** ** A run *)

(** The [while (getline ...)] loop of [simulateCache]: one [CacheAccess] per
    line of the trace, in order. *)
Fixpoint replay (p : policy) (trace : list Z) (cache : list CacheMem)
    (setAssociativity blockSize cacheLineNum : Z) (g : Globals)
  : option (Globals * list CacheMem) :=
  match trace with
  | [] => Some (g, cache)
  | address :: rest =>
      '(g', cache') ← CacheAccess p address cache setAssociativity blockSize
                        cacheLineNum g;
      replay p rest cache' setAssociativity blockSize cacheLineNum g'
  end.

(** [vector<CacheMem> cache(cacheLineNum, CacheMem(setAssociativity))]. *)
Definition new_cache (cacheLineNum setAssociativity : Z) : list CacheMem :=
  replicate (Z.to_nat cacheLineNum) (new_CacheMem (Z.to_nat setAssociativity)).

(** One line of the CSV file. *)
Record Row := mkRow {
  row_traceFile : string;
  row_cacheSizeKB : Z;
  row_blockSize : Z;
  row_associativity : Z;
  row_hitRate : float;
  row_missRate : float
}.

(** What a call writes: lines on [cerr], rows on the CSV file. *)
Record Output := mkOutput {
  cerr : list string;
  csv : list Row
}.

(** The divisor of both rates: [hit + miss] as an [int], converted. *)
Definition rate_divisor (g : Globals) : float :=
  double_of_int (to_int (hit g + miss g)).

(** [(double)hit / (hit + miss) * 100]. *)
Definition hitRate (g : Globals) : float :=
  PrimFloat.mul (PrimFloat.div (double_of_int (hit g)) (rate_divisor g))
                (double_of_int 100).

(** [(double)miss / (hit + miss) * 100]. *)
Definition missRate (g : Globals) : float :=
  PrimFloat.mul (PrimFloat.div (double_of_int (miss g)) (rate_divisor g))
                (double_of_int 100).

(** [simulateCache]. [fs] is the file system: the addresses of the lines of a
    trace file, or [None] for a file that cannot be opened. The result is
    the new value of the globals and what was written. *)
Definition simulateCache (p : policy) (cacheSize blockSize setAssociativity : Z)
    (traceFile : string) (fs : string → option (list Z)) (g : Globals)
  : option (Globals * Output) :=
  let divisor := to_uint32 (blockSize * to_uint32 setAssociativity) in
  if divisor =? 0 then None
  else
    let cacheLineNum := cacheSize / divisor in
    if cacheLineNum =? 0 then
      Some (g, {| cerr := ["Invalid configuration: Cache line number is zero"];
                  csv := [] |})
    else if setAssociativity <? 0 then None
    else
      let cache := new_cache cacheLineNum setAssociativity in
      match fs traceFile with
      | None =>
          Some (globals0,
                {| cerr := [String.app "Unable to open file: " traceFile];
                   csv := [] |})
      | Some trace =>
          '(g', _) ← replay p trace cache setAssociativity blockSize
                       cacheLineNum globals0;
          Some (g',
                {| cerr := [];
                   csv := [ {| row_traceFile := traceFile;
                               row_cacheSizeKB := cacheSize / 1024;
                               row_blockSize := blockSize;
                               row_associativity := setAssociativity;
                               row_hitRate := hitRate g';
                               row_missRate := missRate g' |} ] |})
      end.

(** ** The sweep of [main] *)

(** One call of [simulateCache] in [main]. *)
Record Config := mkConfig {
  cfg_cacheSize : Z;
  cfg_blockSize : Z;
  cfg_associativity : Z;
  cfg_traceFile : string
}.

(** Calls in sequence, each appending to the same [cerr] and CSV file. *)
Fixpoint sweep (p : policy) (cfgs : list Config) (fs : string → option (list Z))
    (g : Globals) : option (Globals * Output) :=
  match cfgs with
  | [] => Some (g, {| cerr := []; csv := [] |})
  | c :: rest =>
      '(g1, o1) ← simulateCache p (cfg_cacheSize c) (cfg_blockSize c)
                    (cfg_associativity c) (cfg_traceFile c) fs g;
      '(g2, o2) ← sweep p rest fs g1;
      Some (g2, {| cerr := cerr o1 ++ cerr o2; csv := csv o1 ++ csv o2 |})
  end.

(** The values of a loop [for (x = lo; x <= hi; x *= 2)] over [uint32_t] or
    over [int] values that stay small. *)
Fixpoint doublings (fuel : nat) (x hi : Z) : list Z :=
  match fuel with
  | O => []
  | S fuel' => if x <=? hi then x :: doublings fuel' (x * 2) hi else []
  end.

Definition traceFiles : list string :=
  ["gcc.trace"; "gzip.trace"; "mcf.trace"; "swim.trace"; "twolf.trace"].

Definition fixedCacheSize : Z := 1024 * 1024.
Definition fixedBlockSize : Z := 4.
Definition fixedAssociativity : Z := 4.

(** The calls of [main], in order: questions a, b, c and d. *)
Definition main_configs : list Config :=
  (f ← traceFiles; [mkConfig fixedCacheSize fixedBlockSize fixedAssociativity f])
  ++ (f ← traceFiles;
      cacheSize ← doublings 32 (128 * 1024) (4096 * 1024);
      [mkConfig cacheSize fixedBlockSize fixedAssociativity f])
  ++ (f ← traceFiles;
      blockSize ← doublings 32 1 128;
      [mkConfig fixedCacheSize blockSize fixedAssociativity f])
  ++ (f ← traceFiles;
      associativity ← doublings 32 1 64;
      [mkConfig fixedCacheSize fixedBlockSize associativity f]).

(** [main] once the CSV file is open: the sweep. *)
Definition main (p : policy) (fs : string → option (list Z))
  : option (Globals * Output) :=
  sweep p main_configs fs globals0.

(** ** Observations *)

Inductive Outcome := Hit | Miss.

(** The classification of an access, read off the counter it incremented. *)
Definition outcome_of (g g' : Globals) : Outcome :=
  if miss g' =? miss g then Hit else Miss.

(** [replay], keeping for each access its outcome and the cache after it. *)
Fixpoint replay_log (p : policy) (trace : list Z) (cache : list CacheMem)
    (setAssociativity blockSize cacheLineNum : Z) (g : Globals)
  : option (list (Outcome * list CacheMem)) :=
  match trace with
  | [] => Some []
  | address :: rest =>
      '(g', cache') ← CacheAccess p address cache setAssociativity blockSize
                        cacheLineNum g;
      log ← replay_log p rest cache' setAssociativity blockSize cacheLineNum g';
      Some ((outcome_of g g', cache') :: log)
  end.

Definition outcomes (p : policy) (trace : list Z)
    (setAssociativity blockSize cacheLineNum : Z)
  : option (list Outcome) :=
  log ← replay_log p trace (new_cache cacheLineNum setAssociativity)
          setAssociativity blockSize cacheLineNum globals0;
  Some (log.*1).

(** ** Properties of a set *)

(** No two valid lines hold the same tag. *)
Definition tags_unique (ls : list CacheLine) : Prop :=
  ∀ (i j : nat) li lj,
    ls !! i = Some li → ls !! j = Some lj →
    valid li = true → valid lj = true → tag li = tag lj → i = j.

(** The number of valid lines. *)
Definition valid_count (ls : list CacheLine) : nat :=
  length (List.filter valid ls).

(** The mask [(1 << indexBits) - 1] of [getIndex], converted to [uint32_t]
    for the [&]. *)
Definition index_mask (indexBits : Z) : Z :=
  to_uint32 (to_int (to_int (Z.shiftl 1 indexBits) - 1)).

(** The recency value as the second loop of [CacheAccess] compares it. *)
Definition recency_u32 (l : CacheLine) : Z := to_uint32 (LRUcount l).

(** The victim of a miss, in the words of the specification: the first
    invalid line in index order; if every line is valid, the line with the
    smallest recency value, the lowest index among equals. [recency] reads
    the recency value of a line. *)
Definition victim_by_priority (recency : CacheLine → Z)
    (ls : list CacheLine) (t : nat) : Prop :=
  ∃ lt, ls !! t = Some lt ∧
    ((∃ j l, ls !! j = Some l ∧ valid l = false) →
       valid lt = false ∧
       ∀ (j : nat) l, (j < t)%nat → ls !! j = Some l → valid l = true) ∧
    ((∀ (j : nat) l, ls !! j = Some l → valid l = true) →
       (∀ (j : nat) l, ls !! j = Some l → recency lt ≤ recency l) ∧
       (∀ (j : nat) l, (j < t)%nat → ls !! j = Some l → recency lt < recency l)).

(** A set of the cache of a run: [n] lines, no tag twice among the valid. *)
Definition set_ok (n : nat) (m : CacheMem) : Prop :=
  length (lines m) = n ∧ tags_unique (lines m).

Definition cache_ok (numSets n : nat) (cache : list CacheMem) : Prop :=
  length cache = numSets ∧ Forall (set_ok n) cache.

(** The counters after [k] accesses, while [k] fits an [int]. *)
Definition lru_in_range (k : Z) (m : CacheMem) : Prop :=
  Forall (λ l, 0 ≤ LRUcount l ≤ k) (lines m).

Definition counters_ok (k : Z) (g : Globals) (cache : list CacheMem) : Prop :=
  accesscount g = k ∧ hit g + miss g = k ∧ 0 ≤ hit g ∧ 0 ≤ miss g ∧
  Forall (lru_in_range k) cache.

(** The state of the second loop before iteration [i]: the lines seen are
    valid, none has a recency below [minUsed], and [tracker] is the first
    line that has [minUsed] (or nothing was seen yet). *)
Definition scan_inv (ls : list CacheLine) (i tracker : nat) (minUsed : Z) : Prop :=
  (∀ (k : nat) l, (k < i)%nat → ls !! k = Some l →
     valid l = true ∧ minUsed ≤ recency_u32 l) ∧
  ((i = 0 ∧ tracker = 0)%nat ∧ minUsed = UINT32_MAX ∨
   (tracker < i)%nat ∧
   ∃ l, ls !! tracker = Some l ∧ recency_u32 l = minUsed ∧
        ∀ (k : nat) l', (k < tracker)%nat → ls !! k = Some l' →
                        minUsed < recency_u32 l').

(** The set [ls'] that [update_others] makes of a set [ls] whose line [skip] was
    just written: validity and tags stay; under modified.cpp the [LRUcount]
    of every valid line but [skip] is incremented. *)
Definition others_rel (p : policy) (skip : nat) (ls ls' : list CacheLine) : Prop :=
  length ls' = length ls ∧
  ∀ (k : nat) l, ls !! k = Some l →
    ∃ l', ls' !! k = Some l' ∧ valid l' = valid l ∧ tag l' = tag l ∧
          LRUcount l' =
            match p with
            | TouchOnly => LRUcount l
            | FullOrder =>
                if (negb (k =? skip)%nat) && valid l
                then to_int (LRUcount l + 1) else LRUcount l
            end.

(** ** Properties of a run *)

(** Line [i] of set [j] of the cache is [l]. *)
Definition line_at (cache : list CacheMem) (j i : nat) (l : CacheLine) : Prop :=
  ∃ m, cache !! j = Some m ∧ lines m !! i = Some l.

(** The address [a] is an access to tag [tg] of set [j]. *)
Definition uses (blockSize cacheLineNum : Z) (j : nat) (tg : Z) (a : Z) : Prop :=
  Z.to_nat (getIndex a blockSize cacheLineNum) = j ∧
  getTag a blockSize cacheLineNum = tg.

(** After [k] accesses: a valid line carries a recency value in [0, k), an
    invalid line is as the constructor left it. *)
Definition stamped (k : Z) (cache : list CacheMem) : Prop :=
  ∀ (j i : nat) l, line_at cache j i l →
    if valid l then 0 ≤ LRUcount l < k else l = default_line.

(** Every resident tag was put there by an access of the trace. *)
Definition resident_from (blockSize cacheLineNum : Z) (trace : list Z)
    (cache : list CacheMem) : Prop :=
  ∀ (j i : nat) l, line_at cache j i l → valid l = true →
    ∃ a, a ∈ trace ∧ uses blockSize cacheLineNum j (tag l) a.

(** The recency value of a valid line is the position in the trace of the
    last access to its tag in its set. *)
Definition stamp_is_last_use (blockSize cacheLineNum : Z) (trace : list Z)
    (cache : list CacheMem) : Prop :=
  ∀ (j i : nat) l, line_at cache j i l → valid l = true →
    ∃ (pos : nat) a,
      LRUcount l = Z.of_nat pos ∧ trace !! pos = Some a ∧
      uses blockSize cacheLineNum j (tag l) a ∧
      ∀ (pos' : nat) a', (pos < pos')%nat → trace !! pos' = Some a' →
                         ¬ uses blockSize cacheLineNum j (tag l) a'.

(** What identifies a row: the configuration it reports. *)
Definition row_config (r : Row) : Config :=
  {| cfg_cacheSize := row_cacheSizeKB r;
     cfg_blockSize := row_blockSize r;
     cfg_associativity := row_associativity r;
     cfg_traceFile := row_traceFile r |}.

(** A configuration [simulateCache] can take: the divisor
    [blockSize * setAssociativity] is not zero as a [uint32_t], and neither
    the associativity nor the (unsigned) cache size is negative. *)
Definition config_runs (c : Config) : Prop :=
  to_uint32 (cfg_blockSize c * to_uint32 (cfg_associativity c)) ≠ 0 ∧
  0 ≤ cfg_associativity c ∧ 0 ≤ cfg_cacheSize c.

(** The number of sets of a configuration. *)
Definition config_sets (c : Config) : Z :=
  cfg_cacheSize c / to_uint32 (cfg_blockSize c * to_uint32 (cfg_associativity c)).

(** Position [pos] of the trace is the last access to tag [tg] of set [j]. *)
Definition last_use (blockSize cacheLineNum : Z) (trace : list Z)
    (j : nat) (tg : Z) (pos : nat) : Prop :=
  ∃ a, trace !! pos = Some a ∧ uses blockSize cacheLineNum j tg a ∧
       ∀ (pos' : nat) a', (pos < pos')%nat → trace !! pos' = Some a' →
                          ¬ uses blockSize cacheLineNum j tg a'.

(** What one call of [simulateCache] writes when it is the first call of the
    program. *)
Definition output_alone (p : policy) (fs : string → option (list Z))
    (c : Config) : Output :=
  match simulateCache p (cfg_cacheSize c) (cfg_blockSize c)
          (cfg_associativity c) (cfg_traceFile c) fs globals0 with
  | Some (_, o) => o
  | None => {| cerr := []; csv := [] |}
  end.

(** The configuration as a row reports it: the cache size in KB. *)
Definition reported (c : Config) : Config :=
  {| cfg_cacheSize := cfg_cacheSize c / 1024;
     cfg_blockSize := cfg_blockSize c;
     cfg_associativity := cfg_associativity c;
     cfg_traceFile := cfg_traceFile c |}.

(** The test, as a boolean, that a configuration has a non-zero divisor, a
    non-zero set count, no negative parameter, and names one of the trace
    files of [main]. *)
Definition config_checks (c : Config) : bool :=
  negb (to_uint32 (cfg_blockSize c * to_uint32 (cfg_associativity c)) =? 0)
  && (0 <=? cfg_associativity c) && (0 <=? cfg_cacheSize c)
  && negb (config_sets c =? 0)
  && bool_decide (cfg_traceFile c ∈ traceFiles).

(** No set is addressed with more than [n] different tags in the trace:
    every duplicate-free list of tags used in one set has at most [n]
    elements. *)
Definition working_set_fits (blockSize cacheLineNum : Z) (n : nat)
    (trace : list Z) : Prop :=
  ∀ (j : nat) (tags : list Z),
    NoDup tags →
    (∀ tg, tg ∈ tags → ∃ a, a ∈ trace ∧ uses blockSize cacheLineNum j tg a) →
    (length tags ≤ n)%nat.

(** The number of accesses of [tr] that address set [j]. *)
Definition accesses_to (blockSize cacheLineNum : Z) (j : nat) (tr : list Z) : nat :=
  length (List.filter
            (λ a, (Z.to_nat (getIndex a blockSize cacheLineNum) =? j)%nat) tr).

(** * Proofs *)

(** ** Machine integers *)

Section MachineIntegers.

Lemma to_int_id z : - 2 ^ 31 ≤ z < 2 ^ 31 → to_int z = z.
Proof.
  intros Hz. unfold to_int.
  rewrite Z.mod_small; lia.
Qed.

Lemma to_uint32_id z : 0 ≤ z < 2 ^ 32 → to_uint32 z = z.
Proof. intros Hz. unfold to_uint32. apply Z.mod_small; lia. Qed.

Lemma to_uint32_range z : 0 ≤ to_uint32 z < 2 ^ 32.
Proof. unfold to_uint32. apply Z.mod_pos_bound. lia. Qed.

Lemma to_int_succ z : 0 ≤ z < INT_MAX → to_int (z + 1) = z + 1.
Proof. unfold INT_MAX. intros Hz. apply to_int_id. lia. Qed.

Lemma index_mask_ones k : 0 ≤ k → index_mask k = Z.ones (Z.min k 32).
Proof.
  intros Hk. unfold index_mask.
  rewrite Z.shiftl_1_l, Z.ones_equiv.
  destruct (Z_lt_le_dec k 31) as [Hlt|Hge].
  - assert (Hp : 0 < 2 ^ k ≤ 2 ^ 30).
    { split; [apply Z.pow_pos_nonneg; lia | apply Z.pow_le_mono_r; lia]. }
    rewrite Z.min_l by lia.
    rewrite (to_int_id (2 ^ k)) by lia.
    rewrite to_int_id by lia.
    rewrite to_uint32_id by lia. lia.
  - destruct (Z.eq_dec k 31) as [->|Hne]; [reflexivity|].
    rewrite Z.min_r by lia.
    assert (Hsplit : 2 ^ k = 2 ^ (k - 32) * 2 ^ 32).
    { rewrite <- Z.pow_add_r by lia. f_equal. lia. }
    assert (H0 : to_int (2 ^ k) = 0).
    { unfold to_int. rewrite Hsplit, Z.add_comm, Z_mod_plus_full. reflexivity. }
    rewrite H0. reflexivity.
Qed.

Lemma index_mask_pow2 k : 0 ≤ k ≤ 31 → index_mask k = 2 ^ k - 1.
Proof.
  intros Hk. rewrite index_mask_ones by lia.
  rewrite Z.min_l by lia. rewrite Z.ones_equiv. lia.
Qed.

End MachineIntegers.

(** ** Address decoding *)

Section AddressDecoder.

Lemma getIndex_mod address blockSize cacheLineNum :
  1 ≤ cacheLineNum →
  getIndex address blockSize cacheLineNum =
    Z.shiftr address (Z.log2 blockSize) mod 2 ^ Z.min (Z.log2 cacheLineNum) 32.
Proof.
  intros Hc. unfold getIndex, log2_uint32.
  fold (index_mask (Z.log2 cacheLineNum)).
  rewrite index_mask_ones by apply Z.log2_nonneg.
  apply Z.land_ones. pose proof (Z.log2_nonneg cacheLineNum). lia.
Qed.

(** The index is a valid subscript of the vector of sets, whatever the
    address and the block size. *)
Lemma getIndex_bound address blockSize cacheLineNum :
  1 ≤ cacheLineNum →
  0 ≤ getIndex address blockSize cacheLineNum < cacheLineNum.
Proof.
  intros Hc. rewrite getIndex_mod by done.
  pose proof (Z.log2_nonneg cacheLineNum) as Hl.
  assert (Hpow : 2 ^ Z.min (Z.log2 cacheLineNum) 32 ≤ cacheLineNum).
  { transitivity (2 ^ Z.log2 cacheLineNum).
    - apply Z.pow_le_mono_r; lia.
    - apply Z.log2_spec. lia. }
  assert (0 < 2 ^ Z.min (Z.log2 cacheLineNum) 32).
  { apply Z.pow_pos_nonneg; lia. }
  pose proof (Z.mod_pos_bound (Z.shiftr address (Z.log2 blockSize))
                (2 ^ Z.min (Z.log2 cacheLineNum) 32)).
  lia.
Qed.

End AddressDecoder.

(** ** The loops of [CacheAccess] *)

Section Loops.

Local Ltac case_nat_tests :=
  repeat match goal with
    | |- context [(?a <=? ?b)%nat] => destruct (Nat.leb_spec a b)
    | |- context [(?a =? ?b)%nat] => destruct (Nat.eqb_spec a b)
    end;
  simpl; try done; try lia.

Lemma hit_scan_spec tg ls fuel : ∀ i,
  (i + fuel ≤ length ls)%nat →
  (∃ j l, hit_scan fuel i ls tg = Some (Some j) ∧ (i ≤ j < i + fuel)%nat ∧
          ls !! j = Some l ∧ valid l = true ∧ tag l = tg) ∨
  (hit_scan fuel i ls tg = Some None ∧
   ∀ (k : nat) l, (i ≤ k < i + fuel)%nat → ls !! k = Some l →
                  valid l = true → tag l ≠ tg).
Proof.
  induction fuel as [|fuel IH]; intros i Hlen; simpl.
  - right. split; [done|]. intros; lia.
  - destruct (lookup_lt_is_Some_2 ls i) as [l Hl]; [lia|].
    rewrite Hl. simpl.
    destruct (valid l && (tag l =? tg)) eqn:E.
    + apply andb_true_iff in E as [Hv Ht]. apply Z.eqb_eq in Ht.
      left. exists i, l. repeat split; try done; lia.
    + destruct (IH (S i)) as [(j & l' & Hs & Hj & Hl' & Hv & Ht)|[Hs Hno]]; [lia| |].
      * left. exists j, l'. repeat split; try done; lia.
      * right. split; [done|]. intros k l' Hk Hl' Hv Ht.
        destruct (decide (k = i)) as [->|Hne].
        -- rewrite Hl in Hl'. injection Hl' as <-.
           rewrite Hv in E. simpl in E. apply Z.eqb_neq in E. done.
        -- apply (Hno k l'); try done. lia.
Qed.

Lemma recency_u32_max l : recency_u32 l ≤ UINT32_MAX.
Proof.
  unfold recency_u32, UINT32_MAX. pose proof (to_uint32_range (LRUcount l)). lia.
Qed.

Lemma miss_scan_spec ls fuel : ∀ i tracker minUsed,
  (i + fuel = length ls)%nat →
  scan_inv ls i tracker minUsed →
  ∃ t, miss_scan fuel i ls tracker minUsed = Some t ∧
    ((∃ l, ls !! t = Some l ∧ valid l = false ∧
           ∀ (k : nat) l', (k < t)%nat → ls !! k = Some l' → valid l' = true) ∨
     ((∀ (k : nat) l, ls !! k = Some l → valid l = true) ∧
      (length ls = 0%nat ∧ t = 0%nat ∨
       ∃ l, ls !! t = Some l ∧
            (∀ (k : nat) l', ls !! k = Some l' → recency_u32 l ≤ recency_u32 l') ∧
            (∀ (k : nat) l', (k < t)%nat → ls !! k = Some l' →
                             recency_u32 l < recency_u32 l')))).
Proof.
  induction fuel as [|fuel IH]; intros i tracker minUsed Hlen [Hseen Htr]; simpl.
  - exists tracker. split; [done|]. right.
    assert (Hall : ∀ (k : nat) l, ls !! k = Some l → (k < i)%nat).
    { intros k l Hk. apply lookup_lt_Some in Hk. lia. }
    split.
    + intros k l Hk. apply (Hseen k l); eauto.
    + destruct Htr as [[[-> ->] _]|(Hlt & l & Hl & Hu & Hfirst)].
      * left. split; [lia|done].
      * right. exists l. split; [done|]. split; [|by rewrite Hu].
        intros k l' Hk. rewrite Hu. apply (Hseen k l'); eauto.
  - destruct (lookup_lt_is_Some_2 ls i) as [l Hl]; [lia|].
    rewrite Hl. simpl.
    destruct (valid l) eqn:Hv; simpl.
    + destruct (Z.ltb_spec (to_uint32 (LRUcount l)) minUsed) as [Hlt|Hge].
      * apply IH; [lia|]. split.
        -- intros k l' Hk Hl'. destruct (decide (k = i)) as [->|Hne].
           ++ rewrite Hl in Hl'. injection Hl' as <-. split; [done|]. reflexivity.
           ++ destruct (Hseen k l') as [Hv' Hm]; [lia|done|].
              split; [done|]. fold (recency_u32 l). unfold recency_u32 in *. lia.
        -- right. split; [lia|]. exists l. split; [done|]. split; [done|].
           intros k l' Hk Hl'. destruct (Hseen k l') as [_ Hm]; [lia|done|].
           unfold recency_u32 in *. lia.
      * apply IH; [lia|]. split.
        -- intros k l' Hk Hl'. destruct (decide (k = i)) as [->|Hne].
           ++ rewrite Hl in Hl'. injection Hl' as <-. split; [done|].
              unfold recency_u32. lia.
           ++ apply (Hseen k l'); [lia|done].
        -- right. destruct Htr as [[[-> ->] ->]|(Hlt & l0 & Hl0 & Hu & Hfirst)].
           ++ split; [lia|]. exists l. split; [done|]. split.
              ** pose proof (recency_u32_max l). unfold recency_u32 in *. lia.
              ** intros k l' Hk. lia.
           ++ split; [lia|]. exists l0. done.
    + exists i. split; [done|]. left. exists l. split; [done|]. split; [done|].
      intros k l' Hk Hl'. apply (Hseen k l'); done.
Qed.

Lemma age_others_spec skip fuel : ∀ j ls,
  (j + fuel = length ls)%nat →
  ∃ ls', age_others fuel j skip ls = Some ls' ∧ length ls' = length ls ∧
    ∀ (k : nat) l, ls !! k = Some l →
      ls' !! k = Some (if (j <=? k)%nat && negb (k =? skip)%nat && valid l
                       then bump l else l).
Proof.
  induction fuel as [|fuel IH]; intros j ls Hlen; simpl.
  - exists ls. split; [done|]. split; [done|].
    intros k l Hk. pose proof (lookup_lt_Some _ _ _ Hk).
    case_nat_tests.
  - destruct (Nat.eqb_spec skip j) as [->|Hne].
    + destruct (IH (S j) ls) as (ls' & Hrun & Hl' & Hlook); [lia|].
      exists ls'. split; [done|]. split; [done|].
      intros k l Hk. rewrite (Hlook k l Hk).
      destruct (decide (k = j)) as [->|Hkj].
      * case_nat_tests.
      * case_nat_tests.
    + destruct (lookup_lt_is_Some_2 ls j) as [lj Hlj]; [lia|].
      rewrite Hlj. simpl.
      set (ls1 := if valid lj then <[j:=bump lj]> ls else ls).
      assert (Hlen1 : length ls1 = length ls).
      { unfold ls1. destruct (valid lj); [apply length_insert|done]. }
      destruct (IH (S j) ls1) as (ls' & Hrun & Hl' & Hlook); [lia|].
      exists ls'. split; [done|]. split; [lia|].
      intros k l Hk.
      destruct (decide (k = j)) as [->|Hkj].
      * rewrite Hlj in Hk. injection Hk as <-.
        assert (H1 : ls1 !! j = Some (if valid lj then bump lj else lj)).
        { unfold ls1. destruct (valid lj); [|done].
          apply list_lookup_insert_eq. lia. }
        rewrite (Hlook j _ H1).
        destruct (valid lj); case_nat_tests.
      * assert (H1 : ls1 !! k = Some l).
        { unfold ls1. destruct (valid lj); [|done].
          rewrite list_lookup_insert_ne; done. }
        rewrite (Hlook k l H1). case_nat_tests.
Qed.

Lemma update_others_spec p n skip ls :
  length ls = n →
  ∃ ls', update_others p n skip ls = Some ls' ∧ others_rel p skip ls ls'.
Proof.
  intros Hn. destruct p; simpl.
  - exists ls. split; [done|]. split; [done|]. intros k l Hk. exists l. done.
  - destruct (age_others_spec skip n 0%nat ls) as (ls' & Hrun & Hlen & Hlook); [lia|].
    exists ls'. split; [done|]. split; [done|].
    intros k l Hk. rewrite (Hlook k l Hk). simpl.
    eexists. split; [done|].
    destruct (negb (k =? skip)%nat && valid l); done.
Qed.

End Loops.

(** ** One access *)

Section OneAccess.

Lemma scan_inv_start ls : scan_inv ls 0 0 UINT32_MAX.
Proof. split; [intros; lia|]. left. done. Qed.

(** The second loop, run over a whole non-empty set, stops on a line of
    the set. *)
Lemma miss_scan_in_range ls :
  (0 < length ls)%nat →
  ∃ t, miss_scan (length ls) 0 ls 0 UINT32_MAX = Some t ∧ (t < length ls)%nat.
Proof.
  intros Hpos.
  destruct (miss_scan_spec ls (length ls) 0%nat 0%nat UINT32_MAX)
    as (t & Hrun & Hpost); [lia|apply scan_inv_start|].
  exists t. split; [done|].
  destruct Hpost as [(l & Hl & _)|[_ [[H0 _]|(l & Hl & _)]]];
    try (by eapply lookup_lt_Some); lia.
Qed.

(** What [CacheAccess] does to a cache whose addressed set [m] has
    [setAssociativity] lines: it returns, writes line [t] of that set, leaves
    the other sets alone, and counts either a hit (line [t] held the tag) or
    a miss (no valid line held it, and [t] is where the second loop stopped). *)
Lemma CacheAccess_spec p address cache setAssociativity blockSize cacheLineNum g m :
  let index := Z.to_nat (getIndex address blockSize cacheLineNum) in
  let tg := getTag address blockSize cacheLineNum in
  let n := Z.to_nat setAssociativity in
  cache !! index = Some m →
  length (lines m) = n →
  (0 < n)%nat →
  ∃ t ls2 g',
    CacheAccess p address cache setAssociativity blockSize cacheLineNum g =
      Some (g', <[index := {| lines := ls2 |}]> cache) ∧
    (t < n)%nat ∧
    others_rel p t (<[t := mkCacheLine true tg (accesscount g)]> (lines m)) ls2 ∧
    accesscount g' = to_int (accesscount g + 1) ∧
    ((hit_scan n 0 (lines m) tg = Some (Some t) ∧
      (∃ l, lines m !! t = Some l ∧ valid l = true ∧ tag l = tg) ∧
      hit g' = to_int (hit g + 1) ∧ miss g' = miss g) ∨
     (hit_scan n 0 (lines m) tg = Some None ∧
      (∀ (k : nat) l, lines m !! k = Some l → valid l = true → tag l ≠ tg) ∧
      miss_scan n 0 (lines m) 0 UINT32_MAX = Some t ∧
      hit g' = hit g ∧ miss g' = to_int (miss g + 1))).
Proof.
  intros index tg n Hm Hlen Hpos.
  unfold CacheAccess. fold index tg n. rewrite Hm. simpl.
  destruct (hit_scan_spec tg (lines m) n 0%nat)
    as [(t & l & Hs & Ht & Hl & Hv & Htag)|[Hs Hno]]; [lia| |].
  - rewrite Hs. simpl. rewrite Hl. simpl. rewrite Hv, Htag.
    destruct (update_others_spec p n t
                (<[t := mkCacheLine true tg (accesscount g)]> (lines m)))
      as (ls2 & Hup & Hrel); [by rewrite length_insert|].
    rewrite Hup. simpl.
    eexists t, ls2, _. split; [done|]. split; [lia|]. split; [done|].
    split; [done|]. left. split; [done|]. split; [|done]. by exists l.
  - rewrite Hs. simpl.
    destruct (miss_scan_in_range (lines m)) as (t & Hrun & Ht); [lia|].
    rewrite Hlen in Hrun. rewrite Hrun. simpl.
    destruct (lookup_lt_is_Some_2 (lines m) t) as [l Hl]; [lia|].
    rewrite Hl. simpl.
    destruct (update_others_spec p n t
                (<[t := mkCacheLine true tg (accesscount g)]> (lines m)))
      as (ls2 & Hup & Hrel); [by rewrite length_insert|].
    rewrite Hup. simpl.
    eexists t, ls2, _. split; [done|]. split; [lia|]. split; [done|].
    split; [done|]. right. split; [done|]. split; [|done].
    intros k l' Hk. apply (Hno k l'); [|done].
    apply lookup_lt_Some in Hk. lia.
Qed.

End OneAccess.

(** ** Invariants of a run *)

Lemma lookup_insert_cases {A} (ls : list A) (t i : nat) (x y : A) :
  <[t := x]> ls !! i = Some y →
  (i = t ∧ y = x) ∨ (i ≠ t ∧ ls !! i = Some y).
Proof.
  intros H. destruct (decide (i = t)) as [->|Hne].
  - left. split; [done|].
    assert (Hlt : (t < length ls)%nat).
    { apply lookup_lt_Some in H. by rewrite length_insert in H. }
    rewrite list_lookup_insert_eq in H by done. congruence.
  - right. split; [done|]. by rewrite list_lookup_insert_ne in H.
Qed.

(** A line of the set after the access, traced back to the set before it. *)
Lemma others_rel_back pol t ls1 ls2 (i : nat) li :
  others_rel pol t ls1 ls2 → ls2 !! i = Some li →
  ∃ l1, ls1 !! i = Some l1 ∧ valid li = valid l1 ∧ tag li = tag l1 ∧
        LRUcount li =
          match pol with
          | TouchOnly => LRUcount l1
          | FullOrder =>
              if negb (i =? t)%nat && valid l1
              then to_int (LRUcount l1 + 1) else LRUcount l1
          end.
Proof.
  intros [Hlen Hrel] Hi.
  destruct (lookup_lt_is_Some_2 ls1 i) as [l1 Hl1].
  { apply lookup_lt_Some in Hi. lia. }
  destruct (Hrel i l1 Hl1) as (l' & Hl' & Hv & Ht & Hc).
  rewrite Hi in Hl'. injection Hl' as <-. by exists l1.
Qed.

Lemma tags_unique_install pol ls t tg ac ls2 :
  tags_unique ls →
  ((∃ l, ls !! t = Some l ∧ valid l = true ∧ tag l = tg) ∨
   (∀ (k : nat) l, ls !! k = Some l → valid l = true → tag l ≠ tg)) →
  others_rel pol t (<[t := mkCacheLine true tg ac]> ls) ls2 →
  tags_unique ls2.
Proof.
  intros Huniq Hcase Hrel i j li lj Hi Hj Hvi Hvj Htag.
  destruct (others_rel_back _ _ _ _ _ _ Hrel Hi) as (l1 & H1 & Hv1 & Ht1 & _).
  destruct (others_rel_back _ _ _ _ _ _ Hrel Hj) as (l2 & H2 & Hv2 & Ht2 & _).
  assert (Hclash : ∀ (k : nat) l, k ≠ t → ls !! k = Some l → valid l = true →
                                  tag l = tg → False).
  { intros k l Hk Hl Hv Ht.
    destruct Hcase as [(l0 & Hl0 & Hv0 & Ht0)|Hno].
    - apply Hk. apply (Huniq k t l l0); congruence.
    - by apply (Hno k l). }
  destruct (lookup_insert_cases _ _ _ _ _ H1) as [[-> ->]|[Hi' Hl1]];
    destruct (lookup_insert_cases _ _ _ _ _ H2) as [[-> ->]|[Hj' Hl2]];
    simpl in *.
  - done.
  - exfalso. apply (Hclash j l2); congruence.
  - exfalso. apply (Hclash i l1); congruence.
  - apply (Huniq i j l1 l2); congruence.
Qed.

Lemma lru_range_install pol ls t tg k ls2 :
  0 ≤ k < INT_MAX →
  Forall (λ l, 0 ≤ LRUcount l ≤ k) ls →
  others_rel pol t (<[t := mkCacheLine true tg k]> ls) ls2 →
  Forall (λ l, 0 ≤ LRUcount l ≤ k + 1) ls2.
Proof.
  intros Hk Hall Hrel. apply Forall_lookup. intros i li Hi.
  destruct (others_rel_back _ _ _ _ _ _ Hrel Hi) as (l1 & H1 & _ & _ & Hc).
  assert (Hl1 : 0 ≤ LRUcount l1 ≤ k).
  { destruct (lookup_insert_cases _ _ _ _ _ H1) as [[-> ->]|[_ Hl1]].
    - simpl. lia.
    - by apply (Forall_lookup_1 _ _ _ _ Hall Hl1). }
  rewrite Hc. destruct pol; [lia|].
  destruct (negb (i =? t)%nat && valid l1); [|lia].
  rewrite to_int_succ; lia.
Qed.

Section Invariants.

Variable p : policy.
Variables setAssociativity blockSize cacheLineNum : Z.
Hypothesis assoc_pos : 1 ≤ setAssociativity.
Hypothesis sets_pos : 1 ≤ cacheLineNum.

Let n := Z.to_nat setAssociativity.
Let numSets := Z.to_nat cacheLineNum.

Lemma addressed_set address cache :
  cache_ok numSets n cache →
  ∃ m, cache !! Z.to_nat (getIndex address blockSize cacheLineNum) = Some m ∧
       set_ok n m.
Proof.
  intros [Hlen Hall].
  pose proof (getIndex_bound address blockSize cacheLineNum sets_pos) as Hb.
  destruct (lookup_lt_is_Some_2 cache
              (Z.to_nat (getIndex address blockSize cacheLineNum))) as [m Hm].
  { rewrite Hlen. unfold numSets. lia. }
  exists m. split; [done|]. by apply (Forall_lookup_1 _ _ _ _ Hall Hm).
Qed.

(** One access from a cache of the run: it returns, the cache stays one of
    the run, and while the counters fit an [int] exactly one of [hit] and
    [miss] goes up by one. *)
Lemma CacheAccess_step address cache g :
  cache_ok numSets n cache →
  ∃ g' cache',
    CacheAccess p address cache setAssociativity blockSize cacheLineNum g =
      Some (g', cache') ∧
    cache_ok numSets n cache' ∧
    (hit g' = to_int (hit g + 1) ∧ miss g' = miss g ∨
     hit g' = hit g ∧ miss g' = to_int (miss g + 1)) ∧
    ∀ k, counters_ok k g cache → k < INT_MAX →
      counters_ok (k + 1) g' cache' ∧
      (hit g' = hit g + 1 ∧ miss g' = miss g ∨
       hit g' = hit g ∧ miss g' = miss g + 1).
Proof.
  intros Hok.
  destruct (addressed_set address cache Hok) as (m & Hm & Hlen & Huniq).
  destruct (CacheAccess_spec p address cache setAssociativity blockSize
              cacheLineNum g m Hm Hlen)
    as (t & ls2 & g' & Hrun & Ht & Hrel & Hac & Hcase); [unfold n; lia|].
  destruct Hok as [Hclen Hall].
  exists g', (<[Z.to_nat (getIndex address blockSize cacheLineNum)
               := {| lines := ls2 |}]> cache).
  split; [done|]. split; [|split].
  - split; [by rewrite length_insert|].
    apply Forall_insert; [done|]. split.
    + simpl. destruct Hrel as [-> _]. by rewrite length_insert.
    + simpl. eapply tags_unique_install; [exact Huniq| |exact Hrel].
      destruct Hcase as [(_ & Hl & _)|(_ & Hno & _)]; [by left|by right].
  - destruct Hcase as [(_ & _ & -> & ->)|(_ & _ & _ & -> & ->)]; [by left|by right].
  - intros k (Hk & Hsum & Hh & Hm0 & Hlru) Hmax.
    assert (Hk0 : 0 ≤ k) by lia.
    split.
    + unfold counters_ok. rewrite Hac, Hk.
      rewrite to_int_succ by lia.
      assert (Hcnt : hit g' + miss g' = k + 1 ∧ 0 ≤ hit g' ∧ 0 ≤ miss g').
      { destruct Hcase as [(_ & _ & -> & ->)|(_ & _ & _ & -> & ->)];
          rewrite to_int_succ by lia; lia. }
      destruct Hcnt as (? & ? & ?). repeat split; try done.
      apply Forall_insert.
      * eapply Forall_impl; [exact Hlru|]. intros m' Hm'.
        eapply Forall_impl; [exact Hm'|]. simpl. intros; lia.
      * unfold lru_in_range. simpl.
        eapply lru_range_install; [split; [exact Hk0|exact Hmax]| |].
        -- apply (Forall_lookup_1 _ _ _ _ Hlru Hm).
        -- rewrite <- Hk. exact Hrel.
    + destruct Hcase as [(_ & _ & -> & ->)|(_ & _ & _ & -> & ->)];
        rewrite to_int_succ by lia; lia.
Qed.

Lemma new_cache_ok : cache_ok numSets n (new_cache cacheLineNum setAssociativity).
Proof.
  unfold new_cache. split; [apply length_replicate|].
  apply Forall_replicate. split; simpl.
  - apply length_replicate.
  - intros i j li lj Hi _ Hvi. apply lookup_replicate in Hi as [-> _]. done.
Qed.

Lemma new_cache_counters :
  counters_ok 0 globals0 (new_cache cacheLineNum setAssociativity).
Proof.
  unfold counters_ok, new_cache. simpl. repeat split; try done.
  apply Forall_replicate. unfold lru_in_range. simpl.
  apply Forall_replicate. simpl. lia.
Qed.

(** A whole trace from a cache of the run. *)
Lemma replay_ok trace : ∀ cache g,
  cache_ok numSets n cache →
  ∃ g' cache',
    replay p trace cache setAssociativity blockSize cacheLineNum g =
      Some (g', cache') ∧
    cache_ok numSets n cache' ∧
    ∀ k, counters_ok k g cache → k + Z.of_nat (length trace) ≤ INT_MAX →
      counters_ok (k + Z.of_nat (length trace)) g' cache'.
Proof.
  induction trace as [|address rest IH]; intros cache g Hok; simpl.
  - exists g, cache. split; [done|]. split; [done|].
    intros k Hc _. by rewrite Z.add_0_r.
  - destruct (CacheAccess_step address cache g Hok)
      as (g1 & c1 & Hrun & Hok1 & _ & Hcnt).
    rewrite Hrun. simpl.
    destruct (IH c1 g1 Hok1) as (g2 & c2 & Hrun2 & Hok2 & Hcnt2).
    exists g2, c2. split; [done|]. split; [done|].
    intros k Hc Hmax.
    destruct (Hcnt k Hc) as [Hc1 _]; [lia|].
    replace (k + Z.of_nat (S (length rest)))
      with (k + 1 + Z.of_nat (length rest)) by lia.
    apply Hcnt2; [done|lia].
Qed.

(** A run of [simulateCache]: the trace replayed on the new cache with the
    counters reset. *)
Lemma run_ok trace :
  ∃ g cache,
    replay p trace (new_cache cacheLineNum setAssociativity) setAssociativity
      blockSize cacheLineNum globals0 = Some (g, cache) ∧
    cache_ok numSets n cache ∧
    (Z.of_nat (length trace) ≤ INT_MAX →
     counters_ok (Z.of_nat (length trace)) g cache).
Proof.
  destruct (replay_ok trace _ globals0 new_cache_ok) as (g & c & Hrun & Hok & Hcnt).
  exists g, c. split; [done|]. split; [done|].
  intros Hmax. apply (Hcnt 0 new_cache_counters). lia.
Qed.

(** Every cache the run goes through is a cache of the run. *)
Lemma replay_log_ok trace : ∀ cache g,
  cache_ok numSets n cache →
  ∃ log,
    replay_log p trace cache setAssociativity blockSize cacheLineNum g =
      Some log ∧
    Forall (λ e, cache_ok numSets n e.2) log.
Proof.
  induction trace as [|address rest IH]; intros cache g Hok; simpl.
  - by exists [].
  - destruct (CacheAccess_step address cache g Hok)
      as (g1 & c1 & Hrun & Hok1 & _).
    rewrite Hrun. simpl.
    destruct (IH c1 g1 Hok1) as (log & Hlog & Hall).
    rewrite Hlog. simpl. eexists. split; [done|].
    by constructor.
Qed.

End Invariants.

(** ** The claims *)

Lemma valid_count_le ls : (valid_count ls ≤ length ls)%nat.
Proof.
  unfold valid_count. induction ls as [|l ls IH]; simpl; [lia|].
  destruct (valid l); simpl; lia.
Qed.

(** C5. For every access sequence replayed on a new cache, the run returns,
    and in the cache it leaves, as in the cache after each single access,
    every set holds at most [setAssociativity] valid lines, no two of which
    hold the same tag. *)
Theorem C5_sets_bounded_tags_unique p setAssociativity blockSize cacheLineNum trace :
  1 ≤ setAssociativity → 1 ≤ cacheLineNum →
  ∃ g cache log,
    replay p trace (new_cache cacheLineNum setAssociativity) setAssociativity
      blockSize cacheLineNum globals0 = Some (g, cache) ∧
    replay_log p trace (new_cache cacheLineNum setAssociativity) setAssociativity
      blockSize cacheLineNum globals0 = Some log ∧
    ∀ c, c = cache ∨ c ∈ log.*2 →
      ∀ m, m ∈ c →
        (valid_count (lines m) ≤ Z.to_nat setAssociativity)%nat ∧
        tags_unique (lines m).
Proof.
  intros Ha Hs.
  destruct (run_ok p setAssociativity blockSize cacheLineNum Ha Hs trace)
    as (g & cache & Hrun & Hok & _).
  destruct (replay_log_ok p setAssociativity blockSize cacheLineNum Ha Hs trace
              _ globals0 (new_cache_ok _ _))
    as (log & Hlog & Hall).
  exists g, cache, log. split; [done|]. split; [done|].
  assert (Hsets : ∀ c, cache_ok (Z.to_nat cacheLineNum)
                         (Z.to_nat setAssociativity) c →
            ∀ m, m ∈ c →
              (valid_count (lines m) ≤ Z.to_nat setAssociativity)%nat ∧
              tags_unique (lines m)).
  { intros c [_ Hc] m Hm. rewrite Forall_forall in Hc.
    destruct (Hc m Hm) as [Hlen Huniq]. split; [|done].
    rewrite <- Hlen. apply valid_count_le. }
  intros c [->|Hc]; [by apply Hsets|].
  apply Hsets. apply list_elem_of_fmap in Hc as ([o c'] & -> & He).
  rewrite Forall_forall in Hall. apply (Hall _ He).
Qed.

Lemma C5_sets_bounded_tags_unique_witness :
  ∃ g cache log,
    replay FullOrder [10; 11; 10; 12; 11] (new_cache 4 2) 2 1 4 globals0 =
      Some (g, cache) ∧
    replay_log FullOrder [10; 11; 10; 12; 11] (new_cache 4 2) 2 1 4 globals0 =
      Some log ∧
    ∀ c, c = cache ∨ c ∈ log.*2 →
      ∀ m, m ∈ c →
        (valid_count (lines m) ≤ Z.to_nat 2)%nat ∧ tags_unique (lines m).
Proof.
  apply (C5_sets_bounded_tags_unique FullOrder 2 1 4 [10; 11; 10; 12; 11]); lia.
Defined.

(** [++] on an [int] that was itself the result of [int] arithmetic. *)
Lemma to_int_add_l x y : to_int (to_int x + y) = to_int (x + y).
Proof.
  unfold to_int.
  replace ((x + 2 ^ 31) mod 2 ^ 32 - 2 ^ 31 + y + 2 ^ 31)
    with ((x + 2 ^ 31) mod 2 ^ 32 + y) by lia.
  rewrite Zplus_mod_idemp_l. do 2 f_equal. lia.
Qed.

(** One more access to address 0 when the only line of the only set holds
    tag 0: a hit. *)
Lemma hit_on_resident_zero g lru :
  CacheAccess TouchOnly 0 [ {| lines := [mkCacheLine true 0 lru] |} ] 1 1 1 g =
    Some ({| hit := to_int (hit g + 1); miss := miss g;
             accesscount := to_int (accesscount g + 1) |},
          [ {| lines := [mkCacheLine true 0 (accesscount g)] |} ]).
Proof. reflexivity. Qed.

(** [S n] such accesses in a row: [S n] hits. *)
Lemma hits_on_resident_zero (n : nat) : ∀ g lru,
  ∃ g' lru',
    replay TouchOnly (replicate (S n) 0)
      [ {| lines := [mkCacheLine true 0 lru] |} ] 1 1 1 g =
      Some (g', [ {| lines := [mkCacheLine true 0 lru'] |} ]) ∧
    hit g' = to_int (hit g + Z.of_nat (S n)) ∧ miss g' = miss g.
Proof.
  induction n as [|n IH]; intros g lru.
  - eexists _, _. split; [reflexivity|]. done.
  - change (replicate (S (S n)) 0) with (0 :: replicate (S n) 0).
    cbn [replay]. rewrite hit_on_resident_zero. cbn [mbind option_bind].
    destruct (IH {| hit := to_int (hit g + 1); miss := miss g;
                    accesscount := to_int (accesscount g + 1) |}
                 (accesscount g)) as (g' & lru' & Hrun & Hh & Hm).
    exists g', lru'. split; [exact Hrun|]. split; [|exact Hm].
    rewrite Hh. cbn [hit]. rewrite to_int_add_l. f_equal. lia.
Qed.

(** C6, as stated, fails beyond the range of the [int] counters: 2^31 + 1
    accesses to address 0 (one set of one line, block size 1) are one miss
    and 2^31 hits, and [hit] has wrapped to -2^31, so that [hit + miss] is
    not the number of accesses. *)
Lemma C6_counters_wrap :
  ∃ g cache,
    replay TouchOnly (replicate (Z.to_nat (2 ^ 31 + 1)) 0) (new_cache 1 1)
      1 1 1 globals0 = Some (g, cache) ∧
    hit g = - 2 ^ 31 ∧ miss g = 1 ∧
    hit g + miss g ≠ Z.of_nat (length (replicate (Z.to_nat (2 ^ 31 + 1)) 0)).
Proof.
  assert (Hn : Z.to_nat (2 ^ 31 + 1) = S (S (Z.to_nat (2 ^ 31 - 1)))) by lia.
  rewrite Hn. generalize (Z.to_nat (2 ^ 31 - 1)) (Z2Nat.id (2 ^ 31 - 1)).
  intros n Hid.
  destruct (hits_on_resident_zero n {| hit := 0; miss := 1; accesscount := 1 |} 0)
    as (g & lru & Hrun & Hh & Hm).
  exists g, [ {| lines := [mkCacheLine true 0 lru] |} ].
  split; [exact Hrun|].
  cbn [hit miss] in Hh, Hm.
  assert (Hhit : hit g = - 2 ^ 31).
  { rewrite Hh. replace (0 + Z.of_nat (S n)) with (2 ^ 31) by lia. reflexivity. }
  split; [exact Hhit|]. split; [exact Hm|].
  rewrite length_replicate, Hhit, Hm. lia.
Qed.

(** C6, amended. Replaying N accesses on a new cache returns, with [hit + miss]
    exactly N (N within the range of the [int] counters); and any further
    access increments ([++]) exactly one of the two counters. *)
Theorem C6_hits_plus_misses p setAssociativity blockSize cacheLineNum trace :
  1 ≤ setAssociativity → 1 ≤ cacheLineNum →
  ∃ g cache,
    replay p trace (new_cache cacheLineNum setAssociativity) setAssociativity
      blockSize cacheLineNum globals0 = Some (g, cache) ∧
    (Z.of_nat (length trace) ≤ INT_MAX →
     hit g + miss g = Z.of_nat (length trace) ∧ 0 ≤ hit g ∧ 0 ≤ miss g) ∧
    ∀ address,
      ∃ g' cache',
        CacheAccess p address cache setAssociativity blockSize cacheLineNum g =
          Some (g', cache') ∧
        (hit g' = to_int (hit g + 1) ∧ miss g' = miss g ∨
         hit g' = hit g ∧ miss g' = to_int (miss g + 1)) ∧
        (Z.of_nat (length trace) < INT_MAX →
         hit g' = hit g + 1 ∧ miss g' = miss g ∨
         hit g' = hit g ∧ miss g' = miss g + 1).
Proof.
  intros Ha Hs.
  destruct (run_ok p setAssociativity blockSize cacheLineNum Ha Hs trace)
    as (g & cache & Hrun & Hok & Hcnt).
  exists g, cache. split; [done|]. split.
  - intros Hmax. destruct (Hcnt Hmax) as (_ & Hsum & Hh & Hm & _). done.
  - intros address.
    destruct (CacheAccess_step p setAssociativity blockSize cacheLineNum Ha Hs
                address cache g Hok) as (g' & cache' & Hstep & _ & Hwrap & Hone).
    exists g', cache'. split; [done|]. split; [done|].
    intros Hlt. apply (Hone (Z.of_nat (length trace))); [|done].
    apply Hcnt. lia.
Qed.

Lemma C6_hits_plus_misses_witness :
  ∃ g cache,
    replay TouchOnly [0; 0; 16; 0] (new_cache 1 1) 1 16 1 globals0 =
      Some (g, cache) ∧
    hit g + miss g = 4 ∧ 0 ≤ hit g ∧ 0 ≤ miss g.
Proof.
  destruct (C6_hits_plus_misses TouchOnly 1 16 1 [0; 0; 16; 0])
    as (g & cache & Hrun & Hsum & _); [lia|lia|].
  exists g, cache. split; [exact Hrun|].
  apply Hsum. vm_compute. discriminate.
Defined.

(** The second loop picks the victim the specification describes, the
    recency value of a line being its [LRUcount] read as a [uint32_t] (the
    specification's recency is an unsigned integer, and the loop compares
    after that conversion). *)
Lemma miss_scan_victim_u32 ls :
  (0 < length ls)%nat →
  ∃ t, miss_scan (length ls) 0 ls 0 UINT32_MAX = Some t ∧
       victim_by_priority recency_u32 ls t.
Proof.
  intros Hpos.
  destruct (miss_scan_spec ls (length ls) 0%nat 0%nat UINT32_MAX)
    as (t & Hrun & Hpost); [lia|apply scan_inv_start|].
  exists t. split; [done|].
  destruct Hpost as [(l & Hl & Hv & Hbefore)|[Hvalid [[H0 _]|(l & Hl & Hmin & Hfirst)]]].
  - exists l. split; [done|]. split; [done|].
    intros Hallv. rewrite (Hallv t l Hl) in Hv. done.
  - lia.
  - exists l. split; [done|]. split; [|done].
    intros (j & l' & Hl' & Hv'). rewrite (Hvalid j l' Hl') in Hv'. done.
Qed.

(** While the recency values of the set are non-negative [int]s, that is the
    [LRUcount] itself. *)
Lemma victim_by_priority_int ls k t :
  k ≤ INT_MAX →
  Forall (λ l, 0 ≤ LRUcount l ≤ k) ls →
  victim_by_priority recency_u32 ls t → victim_by_priority LRUcount ls t.
Proof.
  intros Hk Hall (l & Hl & Hinv & Hmin).
  assert (Hu : ∀ (j : nat) l, ls !! j = Some l → recency_u32 l = LRUcount l).
  { intros j l' Hl'. apply (Forall_lookup_1 _ _ _ _ Hall) in Hl'.
    unfold recency_u32. apply to_uint32_id. unfold INT_MAX in Hk. lia. }
  exists l. split; [done|]. split; [done|].
  intros Hvalid. destruct (Hmin Hvalid) as [Hle Hlt]. split.
  - intros j l' Hl'. rewrite <- (Hu t l Hl), <- (Hu j l' Hl'). by eapply Hle.
  - intros j l' Hj Hl'. rewrite <- (Hu t l Hl), <- (Hu j l' Hl'). by eapply Hlt.
Qed.

(** C4. In every cache reached by replaying a trace on a new cache, an
    access whose tag no valid line of its set holds returns and counts a
    miss; the line [t] it overwrites is the one the second loop stops on,
    and that is the first invalid line in index order or, when every line is
    valid, the line with the smallest recency value, the lowest index among
    equals. The recency value is the [LRUcount] as the loop compares it
    (unsigned); it is the [LRUcount] itself as long as the number of
    accesses fits an [int]. Line [t] then holds the tag and the old
    [accesscount]; validity and tags of the other lines stay. *)
Theorem C4_victim_priority p setAssociativity blockSize cacheLineNum trace address :
  1 ≤ setAssociativity → 1 ≤ cacheLineNum →
  let index := Z.to_nat (getIndex address blockSize cacheLineNum) in
  let tg := getTag address blockSize cacheLineNum in
  ∃ g cache m,
    replay p trace (new_cache cacheLineNum setAssociativity) setAssociativity
      blockSize cacheLineNum globals0 = Some (g, cache) ∧
    cache !! index = Some m ∧
    ((∀ (k : nat) l, lines m !! k = Some l → valid l = true → tag l ≠ tg) →
     ∃ t g' ls',
       miss_scan (Z.to_nat setAssociativity) 0 (lines m) 0 UINT32_MAX = Some t ∧
       victim_by_priority recency_u32 (lines m) t ∧
       (Z.of_nat (length trace) ≤ INT_MAX →
        victim_by_priority LRUcount (lines m) t) ∧
       CacheAccess p address cache setAssociativity blockSize cacheLineNum g =
         Some (g', <[index := {| lines := ls' |}]> cache) ∧
       hit g' = hit g ∧ miss g' = to_int (miss g + 1) ∧
       ls' !! t = Some (mkCacheLine true tg (accesscount g)) ∧
       ∀ (k : nat) l, k ≠ t → lines m !! k = Some l →
         ∃ l', ls' !! k = Some l' ∧ valid l' = valid l ∧ tag l' = tag l).
Proof.
  intros Ha Hs index tg.
  destruct (run_ok p setAssociativity blockSize cacheLineNum Ha Hs trace)
    as (g & cache & Hrun & Hok & Hcnt).
  destruct (addressed_set setAssociativity blockSize cacheLineNum Ha Hs
              address cache Hok) as (m & Hm & Hlen & Huniq).
  exists g, cache, m. split; [done|]. split; [done|].
  intros Hmiss.
  destruct (CacheAccess_spec p address cache setAssociativity blockSize
              cacheLineNum g m Hm Hlen)
    as (t & ls2 & g' & Hstep & Ht & Hrel & _ & Hcase); [lia|].
  destruct Hcase as [(_ & (l & Hl & Hv & Htag) & _)|(_ & _ & Hscan & Hhit & Hmi)].
  { exfalso. by apply (Hmiss t l). }
  destruct (miss_scan_victim_u32 (lines m)) as (t' & Hscan' & Hvictim); [lia|].
  rewrite Hlen, Hscan in Hscan'. injection Hscan' as <-.
  exists t, g', ls2. split; [done|]. split; [done|]. split.
  { intros Hmax. destruct (Hcnt Hmax) as (_ & _ & _ & _ & Hlru).
    eapply victim_by_priority_int; [exact Hmax| |exact Hvictim].
    apply (Forall_lookup_1 _ _ _ _ Hlru Hm). }
  split; [done|]. split; [done|]. split; [done|].
  destruct Hrel as [Hlen2 Hrel]. split.
  - destruct (Hrel t (mkCacheLine true tg (accesscount g)))
      as (l' & Hl' & Hv' & Ht' & Hc').
    { apply list_lookup_insert_eq. lia. }
    rewrite Hl'. f_equal. destruct l' as [v' t' c']. simpl in *.
    assert (c' = accesscount g) as ->.
    { rewrite Hc'. destruct p; [done|]. by rewrite Nat.eqb_refl. }
    by subst.
  - intros k l Hk Hl.
    destruct (Hrel k l) as (l' & Hl' & Hv' & Ht' & _).
    { by rewrite list_lookup_insert_ne. }
    by exists l'.
Qed.

Lemma C4_victim_priority_witness :
  ∃ t g' ls',
    miss_scan 2 0 [mkCacheLine true 10 2; mkCacheLine true 11 1] 0 UINT32_MAX =
      Some t ∧
    victim_by_priority LRUcount
      [mkCacheLine true 10 2; mkCacheLine true 11 1] t ∧
    CacheAccess TouchOnly 12
      [ {| lines := [mkCacheLine true 10 2; mkCacheLine true 11 1] |} ]
      2 1 1 {| hit := 1; miss := 2; accesscount := 3 |} =
      Some (g', [ {| lines := ls' |} ]) ∧
    ls' !! t = Some (mkCacheLine true 12 3).
Proof.
  destruct (C4_victim_priority TouchOnly 2 1 1 [10; 11; 10] 12)
    as (g & cache & m & Hrun & Hm & Hmiss); [lia|lia|].
  vm_compute in Hrun. injection Hrun as <- <-.
  vm_compute in Hm. injection Hm as <-.
  destruct Hmiss as (t & g' & ls' & Hscan & _ & Hvictim & Hacc & _ & _ & Hl & _).
  { intros [|[|k]] l Hl Hv; simpl in Hl; try discriminate;
      injection Hl as <-; vm_compute; discriminate. }
  exists t, g', ls'. split; [exact Hscan|]. split.
  - apply Hvictim. vm_compute. discriminate.
  - split; [exact Hacc|exact Hl].
Defined.

(** C8, as stated, fails where the two logarithms add up to 32 or more:
    with block size 2^16 and 2^16 sets the shift count is 32, the program
    shifts by 0 bits, and the tag of [0xdeadbeef] is [0xdeadbeef] itself,
    not [0xdeadbeef >> 32 = 0]. *)
Lemma C8_tag_shift_of_32_bits :
  getTag 0xdeadbeef 65536 65536 = 0xdeadbeef ∧
  Z.shiftr 0xdeadbeef (Z.log2 65536 + Z.log2 65536) = 0 ∧
  getTag 0xdeadbeef 65536 65536 ≠
    Z.shiftr 0xdeadbeef (Z.log2 65536 + Z.log2 65536).
Proof. repeat split. vm_compute. discriminate. Qed.

(** C8, amended. For block sizes and set counts that are powers of two (as
    [uint32_t]: exponents up to 31) and every address, [getIndex] is
    [(address >> log2 blockSize) & (numSets - 1)]; and [getTag] is
    [address >> (log2 blockSize + log2 numSets)] when the two logarithms
    add up to less than 32, the width of the address. *)
Theorem C8_decode address blockSize numSets b k :
  0 ≤ b ≤ 31 → 0 ≤ k ≤ 31 → blockSize = 2 ^ b → numSets = 2 ^ k →
  getIndex address blockSize numSets =
    Z.land (Z.shiftr address b) (numSets - 1) ∧
  (b + k < 32 → getTag address blockSize numSets = Z.shiftr address (b + k)).
Proof.
  intros Hb Hk -> ->. unfold getIndex, getTag, log2_uint32.
  rewrite !Z.log2_pow2 by lia.
  fold (index_mask k). rewrite index_mask_pow2 by lia.
  split; [done|]. intros Hsum.
  rewrite to_uint32_id by lia. by rewrite Z.mod_small by lia.
Qed.

Lemma C8_decode_witness :
  getIndex 0x1234 16 64 = Z.land (Z.shiftr 0x1234 4) (64 - 1) ∧
  getTag 0x1234 16 64 = Z.shiftr 0x1234 (4 + 6).
Proof.
  destruct (C8_decode 0x1234 16 64 4 6) as [Hindex Htag];
    [lia | lia | reflexivity | reflexivity |].
  split; [exact Hindex|]. apply Htag. lia.
Defined.

(** C10. For every address and power-of-two block size and set count,
    [getIndex] is below [cacheLineNum], so [cache[index]] in [CacheAccess]
    is an element of a vector of [cacheLineNum] sets. *)
Theorem C10_index_in_bounds address blockSize cacheLineNum b k :
  0 ≤ b ≤ 31 → 0 ≤ k ≤ 31 → blockSize = 2 ^ b → cacheLineNum = 2 ^ k →
  0 ≤ getIndex address blockSize cacheLineNum < cacheLineNum ∧
  ∀ cache : list CacheMem,
    length cache = Z.to_nat cacheLineNum →
    is_Some (cache !! Z.to_nat (getIndex address blockSize cacheLineNum)).
Proof.
  intros Hb Hk -> ->.
  assert (Hpos : 1 ≤ 2 ^ k).
  { pose proof (Z.pow_pos_nonneg 2 k). lia. }
  pose proof (getIndex_bound address (2 ^ b) (2 ^ k) Hpos) as Hbound.
  split; [done|].
  intros cache Hlen. apply lookup_lt_is_Some_2. lia.
Qed.

Lemma C10_index_in_bounds_witness :
  0 ≤ getIndex 0xFFFFFFFF 4 65536 < 65536 ∧
  ∀ cache : list CacheMem,
    length cache = Z.to_nat 65536 →
    is_Some (cache !! Z.to_nat (getIndex 0xFFFFFFFF 4 65536)).
Proof.
  apply (C10_index_in_bounds 0xFFFFFFFF 4 65536 2 16);
    [lia | lia | reflexivity | reflexivity].
Defined.

(** C9, as stated, fails where [blockSize * setAssociativity] does not fit
    a [uint32_t]. With block size and associativity 65536 the product is
    2^32 and the quotient of 1024 by it is zero, but the program computes
    the product as 0 and divides by it: the call does not return, nor does
    the sweep. With block size 2^31 and associativity 3 the quotient of
    2^31 by the product is zero as well, but the program computes the
    product as 2^31, builds a cache of one set and writes a row. *)
Lemma C9_divisor_wraps :
  1024 / (65536 * 65536) = 0 ∧
  simulateCache TouchOnly 1024 65536 65536 "gcc.trace" (λ _, Some [0])
    globals0 = None ∧
  sweep TouchOnly [mkConfig 1024 65536 65536 "gcc.trace";
                   mkConfig 1024 4 4 "gcc.trace"]
    (λ _, Some [0]) globals0 = None ∧
  2 ^ 31 / (2 ^ 31 * 3) = 0 ∧
  simulateCache TouchOnly (2 ^ 31) (2 ^ 31) 3 "gcc.trace" (λ _, Some [0])
    globals0 =
    Some ({| hit := 0; miss := 1; accesscount := 1 |},
          {| cerr := [];
             csv := [ {| row_traceFile := "gcc.trace";
                         row_cacheSizeKB := 2097152;
                         row_blockSize := 2 ^ 31;
                         row_associativity := 3;
                         row_hitRate := 0%float;
                         row_missRate := 100%float |} ] |}).
Proof. repeat split. Qed.

(** C9, amended. When the divisor [blockSize * setAssociativity], computed
    as a [uint32_t], is not zero and the number of sets computes to zero,
    [simulateCache] returns
    having written only the message on [cerr]: no row, and the globals are
    as they were, whatever the trace file holds (no cache is built and no
    access runs). The sweep goes on with the remaining configurations. *)
Theorem C9_zero_sets_skipped p cacheSize blockSize setAssociativity traceFile fs g :
  to_uint32 (blockSize * to_uint32 setAssociativity) ≠ 0 →
  cacheSize / to_uint32 (blockSize * to_uint32 setAssociativity) = 0 →
  simulateCache p cacheSize blockSize setAssociativity traceFile fs g =
    Some (g, {| cerr := ["Invalid configuration: Cache line number is zero"];
                csv := [] |}) ∧
  ∀ rest,
    sweep p (mkConfig cacheSize blockSize setAssociativity traceFile :: rest)
      fs g =
    '(g2, o2) ← sweep p rest fs g;
    Some (g2, {| cerr := "Invalid configuration: Cache line number is zero"
                         :: cerr o2;
                 csv := csv o2 |}).
Proof.
  intros Hdiv Hzero.
  assert (Hsim : simulateCache p cacheSize blockSize setAssociativity traceFile fs g =
    Some (g, {| cerr := ["Invalid configuration: Cache line number is zero"];
                csv := [] |})).
  { unfold simulateCache.
    destruct (Z.eqb_spec (to_uint32 (blockSize * to_uint32 setAssociativity)) 0)
      as [E|_]; [done|].
    rewrite Hzero. reflexivity. }
  split; [done|].
  intros rest. simpl. rewrite Hsim. simpl.
  destruct (sweep p rest fs g) as [[g2 o2]|]; reflexivity.
Qed.

Lemma C9_zero_sets_skipped_witness :
  simulateCache TouchOnly 15 4 4 "gcc.trace" (λ _, Some [0; 4; 8]) globals0 =
    Some (globals0,
          {| cerr := ["Invalid configuration: Cache line number is zero"];
             csv := [] |}) ∧
  ∀ rest,
    sweep TouchOnly (mkConfig 15 4 4 "gcc.trace" :: rest)
      (λ _, Some [0; 4; 8]) globals0 =
    '(g2, o2) ← sweep TouchOnly rest (λ _, Some [0; 4; 8]) globals0;
    Some (g2, {| cerr := "Invalid configuration: Cache line number is zero"
                         :: cerr o2;
                 csv := csv o2 |}).
Proof.
  apply (C9_zero_sets_skipped TouchOnly 15 4 4 "gcc.trace"
           (λ _, Some [0; 4; 8]) globals0);
    [vm_compute; discriminate | reflexivity].
Defined.

(** C2, as stated, fails: on an empty trace [simulateCache] writes a row all
    the same, and its two rates are the quotients [0.0 / 0.0 * 100] of the
    counters by [hit + miss = 0]. *)
Lemma C2_empty_trace_divides_by_zero :
  simulateCache TouchOnly 1024 4 4 "empty.trace" (λ _, Some []) globals0 =
    Some (globals0,
          {| cerr := [];
             csv := [ {| row_traceFile := "empty.trace";
                         row_cacheSizeKB := 1;
                         row_blockSize := 4;
                         row_associativity := 4;
                         row_hitRate := hitRate globals0;
                         row_missRate := missRate globals0 |} ] |}) ∧
  hit globals0 + miss globals0 = 0 ∧
  rate_divisor globals0 = 0%float ∧
  hitRate globals0 = (0 / 0 * 100)%float ∧
  missRate globals0 = (0 / 0 * 100)%float.
Proof. repeat split. Qed.

(** C2, amended. On an empty trace (and a configuration with at least one
    set) both rates are computed, by a floating-point division by zero; the
    row is written, and each rate in it is a NaN, which is not 0%. *)
Theorem C2_empty_trace_rates_nan p cacheSize blockSize setAssociativity traceFile fs g :
  to_uint32 (blockSize * to_uint32 setAssociativity) ≠ 0 →
  cacheSize / to_uint32 (blockSize * to_uint32 setAssociativity) ≠ 0 →
  0 ≤ setAssociativity →
  fs traceFile = Some [] →
  ∃ g' row,
    simulateCache p cacheSize blockSize setAssociativity traceFile fs g =
      Some (g', {| cerr := []; csv := [row] |}) ∧
    hit g' + miss g' = 0 ∧
    rate_divisor g' = 0%float ∧
    row_hitRate row = hitRate g' ∧ row_missRate row = missRate g' ∧
    PrimFloat.is_nan (row_hitRate row) = true ∧
    PrimFloat.is_nan (row_missRate row) = true ∧
    row_hitRate row ≠ 0%float ∧ row_missRate row ≠ 0%float.
Proof.
  intros Hdiv Hsets Hassoc Hfile.
  eexists globals0, _. split.
  - unfold simulateCache.
    destruct (Z.eqb_spec (to_uint32 (blockSize * to_uint32 setAssociativity)) 0)
      as [E|_]; [done|].
    destruct (Z.eqb_spec
                (cacheSize / to_uint32 (blockSize * to_uint32 setAssociativity)) 0)
      as [E|_]; [done|].
    destruct (Z.ltb_spec setAssociativity 0) as [E|_]; [lia|].
    rewrite Hfile. simpl. reflexivity.
  - simpl. repeat split; try reflexivity.
    + intros H. apply (f_equal PrimFloat.is_nan) in H. vm_compute in H. done.
    + intros H. apply (f_equal PrimFloat.is_nan) in H. vm_compute in H. done.
Qed.

Lemma C2_empty_trace_rates_nan_witness :
  ∃ g' row,
    simulateCache FullOrder (1024 * 1024) 4 4 "gcc.trace"
      (λ _, Some []) globals0 =
      Some (g', {| cerr := []; csv := [row] |}) ∧
    hit g' + miss g' = 0 ∧
    rate_divisor g' = 0%float ∧
    row_hitRate row = hitRate g' ∧ row_missRate row = missRate g' ∧
    PrimFloat.is_nan (row_hitRate row) = true ∧
    PrimFloat.is_nan (row_missRate row) = true ∧
    row_hitRate row ≠ 0%float ∧ row_missRate row ≠ 0%float.
Proof.
  apply (C2_empty_trace_rates_nan FullOrder (1024 * 1024) 4 4 "gcc.trace"
           (λ _, Some []) globals0);
    [vm_compute; discriminate | vm_compute; discriminate | lia | reflexivity].
Defined.

(** C3. The trace [0x0, 0x0, 0x10, 0x0] on a new cache with block size 16,
    one set and one line per set, under either policy: Miss (tag 0
    installed), Hit, Miss (tag 1, that of 0x10, replaces tag 0), Miss (tag 0
    again); at the end [hit = 1] and [miss = 3], and the row that
    [simulateCache] writes for this geometry has hit rate 25.0. *)
Theorem C3_end_to_end p traceFile :
  replay_log p [0x0; 0x0; 0x10; 0x0] (new_cache 1 1) 1 16 1 globals0 =
    Some [ (Miss, [ {| lines := [mkCacheLine true 0 0] |} ]);
           (Hit,  [ {| lines := [mkCacheLine true 0 1] |} ]);
           (Miss, [ {| lines := [mkCacheLine true 1 2] |} ]);
           (Miss, [ {| lines := [mkCacheLine true 0 3] |} ]) ] ∧
  replay p [0x0; 0x0; 0x10; 0x0] (new_cache 1 1) 1 16 1 globals0 =
    Some ({| hit := 1; miss := 3; accesscount := 4 |},
          [ {| lines := [mkCacheLine true 0 3] |} ]) ∧
  simulateCache p 16 16 1 traceFile (λ _, Some [0x0; 0x0; 0x10; 0x0]) globals0 =
    Some ({| hit := 1; miss := 3; accesscount := 4 |},
          {| cerr := [];
             csv := [ {| row_traceFile := traceFile;
                         row_cacheSizeKB := 0;
                         row_blockSize := 16;
                         row_associativity := 1;
                         row_hitRate := 25%float;
                         row_missRate := 75%float |} ] |}).
Proof. destruct p; repeat split. Qed.

(** C7. The two policies are observably different: with one set of two
    lines and block size 1, the trace [10, 11, 10, 12, 11] ends in a miss
    under the touch-only policy and in a hit under the full-order policy,
    because the fourth access replaced different lines. *)
Theorem C7_policies_differ :
  ∃ setAssociativity blockSize cacheLineNum trace o1 o2 g1 c1 g2 c2,
    outcomes TouchOnly trace setAssociativity blockSize cacheLineNum = Some o1 ∧
    outcomes FullOrder trace setAssociativity blockSize cacheLineNum = Some o2 ∧
    o1 ≠ o2 ∧
    replay TouchOnly trace (new_cache cacheLineNum setAssociativity)
      setAssociativity blockSize cacheLineNum globals0 = Some (g1, c1) ∧
    replay FullOrder trace (new_cache cacheLineNum setAssociativity)
      setAssociativity blockSize cacheLineNum globals0 = Some (g2, c2) ∧
    hit g1 ≠ hit g2 ∧ (map tag ∘ lines) <$> c1 ≠ (map tag ∘ lines) <$> c2.
Proof.
  exists 2, 1, 1, [10; 11; 10; 12; 11].
  exists [Miss; Miss; Hit; Miss; Miss], [Miss; Miss; Hit; Miss; Hit].
  eexists _, _, _, _.
  split; [reflexivity|]. split; [reflexivity|]. split; [discriminate|].
  split; [reflexivity|]. split; [reflexivity|]. split; discriminate.
Qed.

(** With block size 1 and a single set, the tag is the address itself. *)
Lemma getIndex_single_set address : getIndex address 1 1 = 0.
Proof. unfold getIndex. simpl. apply Z.land_0_r. Qed.

Lemma getTag_single_set address : getTag address 1 1 = address.
Proof. unfold getTag. simpl. apply Z.shiftr_0_r. Qed.

(** C1 fails on modified.cpp. One set of two lines, new; tags A, B, A, C in
    turn, A, B and C distinct. After the hit on A both lines carry the same
    [LRUcount] (the hit line got [accesscount], the other line was
    incremented up to it), so the second loop keeps index 0 and the miss on
    C overwrites the line of A: the set ends holding C and B. *)
Theorem C1_full_order_evicts_A (A B C : Z) :
  A ≠ B → A ≠ C → B ≠ C →
  replay_log FullOrder [A; B; A; C] (new_cache 1 2) 2 1 1 globals0 =
    Some [ (Miss, [ {| lines := [mkCacheLine true A 0; default_line] |} ]);
           (Miss, [ {| lines := [mkCacheLine true A 1; mkCacheLine true B 1] |} ]);
           (Hit,  [ {| lines := [mkCacheLine true A 2; mkCacheLine true B 2] |} ]);
           (Miss, [ {| lines := [mkCacheLine true C 3; mkCacheLine true B 3] |} ]) ].
Proof.
  intros HAB HAC HBC.
  assert (EBA : (A =? B) = false) by (by apply Z.eqb_neq).
  assert (ECA : (A =? C) = false) by (by apply Z.eqb_neq).
  assert (ECB : (B =? C) = false) by (by apply Z.eqb_neq).
  unfold replay_log, CacheAccess.
  rewrite !getIndex_single_set, !getTag_single_set.
  simpl. rewrite EBA. simpl. rewrite Z.eqb_refl. simpl.
  rewrite ECA, ECB. simpl. reflexivity.
Qed.

Lemma C1_full_order_evicts_A_witness :
  replay_log FullOrder [10; 11; 10; 12] (new_cache 1 2) 2 1 1 globals0 =
    Some [ (Miss, [ {| lines := [mkCacheLine true 10 0; default_line] |} ]);
           (Miss, [ {| lines := [mkCacheLine true 10 1; mkCacheLine true 11 1] |} ]);
           (Hit,  [ {| lines := [mkCacheLine true 10 2; mkCacheLine true 11 2] |} ]);
           (Miss, [ {| lines := [mkCacheLine true 12 3; mkCacheLine true 11 3] |} ]) ].
Proof. apply (C1_full_order_evicts_A 10 11 12); lia. Defined.

(** The same accesses under IMT2023048_031_045_Code.cpp: the hit gives A the
    larger [LRUcount], and the miss on C overwrites the line of B. *)
Lemma touch_only_evicts_B (A B C : Z) :
  A ≠ B → A ≠ C → B ≠ C →
  replay_log TouchOnly [A; B; A; C] (new_cache 1 2) 2 1 1 globals0 =
    Some [ (Miss, [ {| lines := [mkCacheLine true A 0; default_line] |} ]);
           (Miss, [ {| lines := [mkCacheLine true A 0; mkCacheLine true B 1] |} ]);
           (Hit,  [ {| lines := [mkCacheLine true A 2; mkCacheLine true B 1] |} ]);
           (Miss, [ {| lines := [mkCacheLine true A 2; mkCacheLine true C 3] |} ]) ].
Proof.
  intros HAB HAC HBC.
  assert (EBA : (A =? B) = false) by (by apply Z.eqb_neq).
  assert (ECA : (A =? C) = false) by (by apply Z.eqb_neq).
  assert (ECB : (B =? C) = false) by (by apply Z.eqb_neq).
  unfold replay_log, CacheAccess.
  rewrite !getIndex_single_set, !getTag_single_set.
  simpl. rewrite EBA. simpl. rewrite Z.eqb_refl. simpl.
  rewrite ECA, ECB. simpl. reflexivity.
Qed.

(** ** Supporting facts about the embedding *)

(** The shift of [getTag] is by fewer than 32 bits (where the C++ shift is
    defined) for every geometry [simulateCache] derives without overflow of
    [blockSize * setAssociativity]. *)
Lemma getTag_shift_in_range cacheSize blockSize setAssociativity :
  0 ≤ cacheSize < 2 ^ 32 → 1 ≤ blockSize → 1 ≤ setAssociativity →
  1 ≤ cacheSize / (blockSize * setAssociativity) →
  log2_uint32 blockSize +
    log2_uint32 (cacheSize / (blockSize * setAssociativity)) < 32.
Proof.
  intros Hc Hb Ha Hsets. unfold log2_uint32.
  set (d := blockSize * setAssociativity) in *.
  set (s := cacheSize / d) in *.
  assert (Hd : 0 < d) by (unfold d; nia).
  assert (Hmul : d * s ≤ cacheSize) by (apply Z.mul_div_le; lia).
  pose proof (Z.log2_spec blockSize ltac:(lia)) as [Hlb _].
  pose proof (Z.log2_spec s ltac:(lia)) as [Hls _].
  pose proof (Z.log2_nonneg blockSize) as Hb0.
  pose proof (Z.log2_nonneg s) as Hs0.
  apply (Z.pow_lt_mono_r_iff 2); [lia|lia|].
  rewrite Z.pow_add_r by lia.
  assert (Hbd : blockSize ≤ d) by (unfold d; nia).
  assert (0 < 2 ^ Z.log2 blockSize) by (apply Z.pow_pos_nonneg; lia).
  assert (0 < 2 ^ Z.log2 s) by (apply Z.pow_pos_nonneg; lia).
  nia.
Qed.

(** The log of a run has one entry per access, and exists whenever the run
    returns. *)
Lemma replay_log_defined p setAssociativity blockSize cacheLineNum trace :
  ∀ cache g g' cache',
    replay p trace cache setAssociativity blockSize cacheLineNum g =
      Some (g', cache') →
    ∃ log,
      replay_log p trace cache setAssociativity blockSize cacheLineNum g =
        Some log ∧
      length log = length trace ∧
      last (cache :: log.*2) = Some cache'.
Proof.
  induction trace as [|address rest IH]; intros cache g g' cache' Hrun; simpl in *.
  - injection Hrun as <- <-. by exists [].
  - destruct (CacheAccess p address cache setAssociativity blockSize
                cacheLineNum g) as [[g1 c1]|]; [|done].
    simpl in *. destruct (IH c1 g1 g' cache' Hrun) as (log & Hlog & Hlen & Hlast).
    rewrite Hlog. simpl. eexists. split; [done|]. split; [simpl; lia|].
    simpl. exact Hlast.
Qed.

(** [++] changes an [int]. *)
Lemma to_int_succ_neq z : to_int (z + 1) ≠ z.
Proof.
  unfold to_int. intros H.
  pose proof (Z.mod_pos_bound (z + 1 + 2 ^ 31) (2 ^ 32) ltac:(lia)) as Hb.
  destruct (Z_lt_le_dec (z + 2 ^ 31 + 1) (2 ^ 32)) as [Hlt|Hge].
  - rewrite Z.mod_small in H by lia. lia.
  - assert (E : z + 1 + 2 ^ 31 = 2 ^ 32) by lia.
    rewrite E, Z_mod_same_full in H. lia.
Qed.

(** An access is classified a hit exactly when a valid line of its set
    holds its tag. *)
Lemma CacheAccess_outcome p address cache setAssociativity blockSize cacheLineNum
    g g' cache' m :
  cache !! Z.to_nat (getIndex address blockSize cacheLineNum) = Some m →
  length (lines m) = Z.to_nat setAssociativity →
  1 ≤ setAssociativity →
  CacheAccess p address cache setAssociativity blockSize cacheLineNum g =
    Some (g', cache') →
  outcome_of g g' = Hit ↔
  ∃ (k : nat) l, lines m !! k = Some l ∧ valid l = true ∧
                 tag l = getTag address blockSize cacheLineNum.
Proof.
  intros Hm Hlen Ha Hrun.
  destruct (CacheAccess_spec p address cache setAssociativity blockSize
              cacheLineNum g m Hm Hlen)
    as (t & ls2 & g1 & Hstep & _ & _ & _ & Hcase); [lia|].
  rewrite Hrun in Hstep. injection Hstep as <- _.
  unfold outcome_of.
  destruct Hcase as [(_ & (l & Hl & Hv & Ht) & _ & ->)|(_ & Hno & _ & _ & ->)].
  - rewrite Z.eqb_refl. split; [|done]. intros _. by exists t, l.
  - destruct (Z.eqb_spec (to_int (miss g + 1)) (miss g)) as [E|_].
    { by apply to_int_succ_neq in E. }
    split; [done|]. intros (k & l & Hl & Hv & Ht). by apply (Hno k l) in Ht.
Qed.

(** The rates of 75 hits and 25 misses. *)
Example rates_75_25 :
  hitRate {| hit := 75; miss := 25; accesscount := 100 |} = 75%float ∧
  missRate {| hit := 75; miss := 25; accesscount := 100 |} = 25%float.
Proof. split; reflexivity. Qed.

(** No call of [main] asks for a cache without sets, and [main] makes 110
    calls. *)
Example main_configs_have_sets :
  length main_configs = 110%nat ∧
  forallb (λ c, 0 <? cfg_cacheSize c /
                     to_uint32 (cfg_blockSize c * to_uint32 (cfg_associativity c)))
          main_configs = true.
Proof. split; reflexivity. Qed.

(** * Further properties of the code *)

(** ** One access, line by line *)

Lemma replay_app p t1 t2 setAssociativity blockSize cacheLineNum : ∀ cache g,
  replay p (t1 ++ t2) cache setAssociativity blockSize cacheLineNum g =
    '(g1, c1) ← replay p t1 cache setAssociativity blockSize cacheLineNum g;
    replay p t2 c1 setAssociativity blockSize cacheLineNum g1.
Proof.
  induction t1 as [|a t1 IH]; intros cache g; simpl; [done|].
  destruct (CacheAccess p a cache setAssociativity blockSize cacheLineNum g)
    as [[g1 c1]|]; simpl; [apply IH|done].
Qed.

(** The line that [update_others] skips is as it was written. *)
Lemma others_rel_written pol t x ls ls2 :
  (t < length ls)%nat →
  others_rel pol t (<[t := x]> ls) ls2 → ls2 !! t = Some x.
Proof.
  intros Ht [_ Hrel].
  destruct (Hrel t x) as (l' & Hl' & Hv & Htag & Hc).
  { by apply list_lookup_insert_eq. }
  rewrite Hl'. f_equal. destruct l' as [v' t' c'], x as [v tg c]. simpl in *.
  assert (c' = c) as ->.
  { rewrite Hc. destruct pol; [done|]. by rewrite Nat.eqb_refl. }
  by subst.
Qed.

Section Reachable.

Variable p : policy.
Variables setAssociativity blockSize cacheLineNum : Z.
Hypothesis assoc_pos : 1 ≤ setAssociativity.
Hypothesis sets_pos : 1 ≤ cacheLineNum.

Let n := Z.to_nat setAssociativity.
Let numSets := Z.to_nat cacheLineNum.

(** One access from a cache of the run, in full: the access returns; line
    [t] of the addressed set becomes the valid line of the tag, stamped with
    the old [accesscount]; every other line of the cache keeps validity and
    tag, and keeps its [LRUcount] too unless the program is modified.cpp and
    the line is a valid line of the addressed set; the access is a hit when
    line [t] held the tag, and a miss with victim [t] when no valid line
    held it. *)
Lemma CacheAccess_lines address cache g :
  let index := Z.to_nat (getIndex address blockSize cacheLineNum) in
  let tg := getTag address blockSize cacheLineNum in
  cache_ok numSets n cache →
  ∃ (t : nat) g' cache',
    CacheAccess p address cache setAssociativity blockSize cacheLineNum g =
      Some (g', cache') ∧
    cache_ok numSets n cache' ∧
    (index < numSets)%nat ∧ (t < n)%nat ∧
    accesscount g' = to_int (accesscount g + 1) ∧
    line_at cache' index t (mkCacheLine true tg (accesscount g)) ∧
    (∀ j : nat, j ≠ index → cache' !! j = cache !! j) ∧
    (∀ (j i : nat) l', line_at cache' j i l' →
       (j = index ∧ i = t ∧ l' = mkCacheLine true tg (accesscount g)) ∨
       ((j ≠ index ∨ i ≠ t) ∧
        ∃ l, line_at cache j i l ∧ valid l' = valid l ∧ tag l' = tag l ∧
             (p = TouchOnly ∨ j ≠ index ∨ valid l = false → l' = l) ∧
             (LRUcount l' = LRUcount l ∨ LRUcount l' = to_int (LRUcount l + 1)))) ∧
    (∀ (j i : nat) l, line_at cache j i l → (j ≠ index ∨ i ≠ t) →
       ∃ l', line_at cache' j i l' ∧ valid l' = valid l ∧ tag l' = tag l ∧
             (p = TouchOnly ∨ j ≠ index ∨ valid l = false → l' = l) ∧
             (p = FullOrder → j = index → valid l = true →
              LRUcount l' = to_int (LRUcount l + 1))) ∧
    (((∃ l, line_at cache index t l ∧ valid l = true ∧ tag l = tg) ∧
      hit g' = to_int (hit g + 1) ∧ miss g' = miss g) ∨
     ((∀ (i : nat) l, line_at cache index i l → valid l = true → tag l ≠ tg) ∧
      (∃ m, cache !! index = Some m ∧
            victim_by_priority recency_u32 (lines m) t) ∧
      hit g' = hit g ∧ miss g' = to_int (miss g + 1))).
Proof.
  intros index tg Hok.
  destruct (addressed_set setAssociativity blockSize cacheLineNum assoc_pos
              sets_pos address cache Hok) as (m & Hm & Hlen & Huniq).
  fold index in Hm.
  destruct (CacheAccess_spec p address cache setAssociativity blockSize
              cacheLineNum g m Hm Hlen)
    as (t & ls2 & g' & Hstep & Ht & Hrel & Hac & Hcase); [lia|].
  fold index tg in Hstep, Hrel, Hcase. fold n in Hlen, Ht.
  destruct (CacheAccess_step p setAssociativity blockSize cacheLineNum assoc_pos
              sets_pos address cache g Hok) as (g1 & c1 & Hrun & Hok' & _).
  rewrite Hstep in Hrun. injection Hrun as <- <-.
  assert (Hidx : (index < length cache)%nat) by (by eapply lookup_lt_Some).
  assert (Hset : <[index := {| lines := ls2 |}]> cache !! index =
                 Some {| lines := ls2 |}) by (by apply list_lookup_insert_eq).
  assert (Hnew : ls2 !! t = Some (mkCacheLine true tg (accesscount g))).
  { eapply others_rel_written; [|exact Hrel]. lia. }
  exists t, g', (<[index := {| lines := ls2 |}]> cache).
  split; [done|]. split; [done|].
  split; [destruct Hok as [<- _]; done|]. split; [done|]. split; [done|].
  split; [by exists {| lines := ls2 |}|].
  split; [intros j Hj; by apply list_lookup_insert_ne|].
  split; [|split].
  - intros j i l' (m' & Hm' & Hl').
    destruct (decide (j = index)) as [->|Hj].
    + rewrite Hset in Hm'. injection Hm' as <-. simpl in Hl'.
      destruct (decide (i = t)) as [->|Hi].
      * left. rewrite Hnew in Hl'. injection Hl' as <-. done.
      * right. split; [by right|].
        destruct (others_rel_back _ _ _ _ _ _ Hrel Hl') as (l1 & H1 & Hv & Htg & Hc).
        rewrite list_lookup_insert_ne in H1 by done.
        exists l1. split; [by exists m|]. split; [done|]. split; [done|].
        split.
        -- intros Hsame. destruct l' as [v' t' c'], l1 as [v1 t1 c1].
           simpl in *. subst v' t'. f_equal.
           destruct Hsame as [->|[Hne| ->]]; [done|done|].
           destruct p; [done|]. by rewrite andb_false_r in Hc.
        -- destruct p; [by left|].
           destruct (negb (i =? t)%nat && valid l1); [by right|by left].
    + right. split; [by left|].
      rewrite list_lookup_insert_ne in Hm' by done.
      exists l'. split; [by exists m'|]. repeat split; try done. by left.
  - intros j i l (m0 & Hm0 & Hl) Hpos.
    destruct (decide (j = index)) as [->|Hj].
    + rewrite Hm in Hm0. injection Hm0 as <-.
      assert (Hi : i ≠ t) by (destruct Hpos; done).
      destruct Hrel as [_ Hrel].
      destruct (Hrel i l) as (l' & Hl' & Hv & Htg & Hc).
      { by rewrite list_lookup_insert_ne. }
      exists l'. split; [by exists {| lines := ls2 |}|].
      split; [done|]. split; [done|]. split.
      * intros Hsame. destruct l' as [v' t' c'], l as [v1 t1 c1].
        simpl in *. subst v' t'. f_equal.
        destruct Hsame as [->|[Hne| ->]]; [done|done|].
        destruct p; [done|]. by rewrite andb_false_r in Hc.
      * intros -> _ Hvl. rewrite Hc, Hvl.
        replace (i =? t)%nat with false; [done|].
        symmetry. by apply Nat.eqb_neq.
    + exists l. split.
      * exists m0. by rewrite list_lookup_insert_ne.
      * repeat split; done.
  - destruct Hcase as [(_ & (l & Hl & Hv & Htg) & Hh & Hmi)
                      |(_ & Hno & Hscan & Hh & Hmi)].
    + left. split; [|done]. exists l. split; [by exists m|done].
    + right. split; [|split; [|done]].
      * intros i l (m0 & Hm0 & Hl). rewrite Hm in Hm0. injection Hm0 as <-.
        by apply (Hno i l).
      * exists m. split; [done|].
        destruct (miss_scan_victim_u32 (lines m)) as (t' & Hscan' & Hvictim);
          [lia|].
        rewrite Hlen in Hscan'. unfold n in Hscan'.
        rewrite Hscan in Hscan'. injection Hscan' as <-. done.
Qed.


(** Induction over a run, one access at a time at the end of the trace. *)
Lemma replay_invariant (I : list Z → Globals → list CacheMem → Prop) :
  I [] globals0 (new_cache cacheLineNum setAssociativity) →
  (∀ tr g c a g' c',
     cache_ok numSets n c → I tr g c →
     CacheAccess p a c setAssociativity blockSize cacheLineNum g = Some (g', c') →
     I (tr ++ [a]) g' c') →
  ∀ trace,
    ∃ g c,
      replay p trace (new_cache cacheLineNum setAssociativity) setAssociativity
        blockSize cacheLineNum globals0 = Some (g, c) ∧
      cache_ok numSets n c ∧ I trace g c.
Proof.
  intros Hbase Hstep trace.
  induction trace as [|a tr IH] using rev_ind.
  - exists globals0, (new_cache cacheLineNum setAssociativity).
    split; [done|]. split; [|done].
    apply (new_cache_ok setAssociativity cacheLineNum).
  - destruct IH as (g & c & Hrun & Hok & HI).
    destruct (CacheAccess_step p setAssociativity blockSize cacheLineNum
                assoc_pos sets_pos a c g Hok) as (g' & c' & Hacc & Hok' & _).
    exists g', c'. split; [|split; [done|by apply (Hstep tr g c a g' c')]].
    rewrite replay_app, Hrun. simpl. rewrite Hacc. done.
Qed.

(** The access count and the recency values, while they fit an [int]. *)
Lemma run_stamped trace :
  ∃ g c,
    replay p trace (new_cache cacheLineNum setAssociativity) setAssociativity
      blockSize cacheLineNum globals0 = Some (g, c) ∧
    cache_ok numSets n c ∧
    (Z.of_nat (length trace) ≤ INT_MAX →
     accesscount g = Z.of_nat (length trace) ∧
     stamped (Z.of_nat (length trace)) c).
Proof.
  apply (replay_invariant (λ tr g c,
           Z.of_nat (length tr) ≤ INT_MAX →
           accesscount g = Z.of_nat (length tr) ∧
           stamped (Z.of_nat (length tr)) c)).
  - intros _. split; [done|].
    intros j i l (m & Hm & Hl). unfold new_cache in Hm.
    apply lookup_replicate in Hm as [-> _]. simpl in Hl.
    apply lookup_replicate in Hl as [-> _]. done.
  - intros tr g c a g' c' Hok IH Hacc Hmax.
    rewrite length_app in *. simpl in *.
    destruct IH as [Hac Hst]; [lia|].
    destruct (CacheAccess_lines a c g Hok)
      as (t & g1 & c1 & Hacc1 & _ & _ & _ & Hac1 & _ & _ & Hback & _).
    rewrite Hacc in Hacc1. injection Hacc1 as <- <-.
    split.
    + rewrite Hac1, Hac. rewrite to_int_succ; lia.
    + intros j i l' Hl'.
      destruct (Hback j i l' Hl') as [(_ & _ & ->)|(_ & l & Hl & Hv & _ & Hsame & Hc)].
      * simpl. lia.
      * specialize (Hst j i l Hl). rewrite Hv.
        destruct (valid l) eqn:E.
        -- destruct Hc as [->| ->]; [lia|]. rewrite to_int_succ; lia.
        -- rewrite Hsame; [done|]. by right; right.
Qed.

(** Every resident tag comes from the trace. *)
Lemma run_resident trace :
  ∃ g c,
    replay p trace (new_cache cacheLineNum setAssociativity) setAssociativity
      blockSize cacheLineNum globals0 = Some (g, c) ∧
    cache_ok numSets n c ∧
    resident_from blockSize cacheLineNum trace c.
Proof.
  apply (replay_invariant (λ tr g c, resident_from blockSize cacheLineNum tr c)).
  - intros j i l (m & Hm & Hl) Hv. unfold new_cache in Hm.
    apply lookup_replicate in Hm as [-> _]. simpl in Hl.
    apply lookup_replicate in Hl as [-> _]. done.
  - intros tr g c a g' c' Hok IH Hacc j i l' Hl' Hv'.
    destruct (CacheAccess_lines a c g Hok)
      as (t & g1 & c1 & Hacc1 & _ & _ & _ & _ & _ & _ & Hback & _).
    rewrite Hacc in Hacc1. injection Hacc1 as <- <-.
    destruct (Hback j i l' Hl') as [(-> & _ & ->)|(_ & l & Hl & Hv & Htg & _)].
    + exists a. split; [|done].
      apply elem_of_app. right. by apply list_elem_of_singleton.
    + destruct (IH j i l Hl) as (a0 & Ha0 & Huse); [congruence|].
      exists a0. split; [apply elem_of_app; by left|]. by rewrite Htg.
Qed.

End Reachable.

(** ** Residency *)

Lemma line_at_inj cache (j i : nat) l1 l2 :
  line_at cache j i l1 → line_at cache j i l2 → l1 = l2.
Proof. intros (m1 & Hm1 & Hl1) (m2 & Hm2 & Hl2). congruence. Qed.

Lemma line_at_unique_tag numSets n cache (j i1 i2 : nat) l1 l2 :
  cache_ok numSets n cache →
  line_at cache j i1 l1 → line_at cache j i2 l2 →
  valid l1 = true → valid l2 = true → tag l1 = tag l2 → i1 = i2.
Proof.
  intros [_ Hall] (m1 & Hm1 & Hl1) (m2 & Hm2 & Hl2) Hv1 Hv2 Ht.
  rewrite Hm1 in Hm2. injection Hm2 as <-.
  destruct (Forall_lookup_1 _ _ _ _ Hall Hm1) as [_ Huniq].
  by apply (Huniq i1 i2 l1 l2).
Qed.

Lemma outcome_of_hit g g' : miss g' = miss g → outcome_of g g' = Hit.
Proof. intros E. unfold outcome_of. by rewrite E, Z.eqb_refl. Qed.

Lemma outcome_of_miss g g' :
  miss g' = to_int (miss g + 1) → outcome_of g g' = Miss.
Proof.
  intros E. unfold outcome_of. rewrite E.
  destruct (Z.eqb_spec (to_int (miss g + 1)) (miss g)) as [E'|_]; [|done].
  by apply to_int_succ_neq in E'.
Qed.

(** X1. After any run, an access followed at once by an access to the same
    address: the second one returns and is a hit, under either program. *)
Theorem X1_repeated_access_hits p setAssociativity blockSize cacheLineNum trace a :
  1 ≤ setAssociativity → 1 ≤ cacheLineNum →
  ∃ g c g1 c1 g2 c2,
    replay p trace (new_cache cacheLineNum setAssociativity) setAssociativity
      blockSize cacheLineNum globals0 = Some (g, c) ∧
    CacheAccess p a c setAssociativity blockSize cacheLineNum g = Some (g1, c1) ∧
    CacheAccess p a c1 setAssociativity blockSize cacheLineNum g1 = Some (g2, c2) ∧
    outcome_of g1 g2 = Hit ∧
    hit g2 = to_int (hit g1 + 1) ∧ miss g2 = miss g1.
Proof.
  intros Ha Hs.
  destruct (run_ok p setAssociativity blockSize cacheLineNum Ha Hs trace)
    as (g & c & Hrun & Hok & _).
  destruct (CacheAccess_lines p setAssociativity blockSize cacheLineNum Ha Hs
              a c g Hok)
    as (t & g1 & c1 & Hacc1 & Hok1 & _ & _ & _ & Hnew & _).
  destruct (CacheAccess_lines p setAssociativity blockSize cacheLineNum Ha Hs
              a c1 g1 Hok1)
    as (t2 & g2 & c2 & Hacc2 & _ & _ & _ & _ & _ & _ & _ & _ & Hcase).
  exists g, c, g1, c1, g2, c2. split; [done|]. split; [done|]. split; [done|].
  destruct Hcase as [(_ & Hh & Hm)|(Hno & _)].
  - split; [by apply outcome_of_hit|done].
  - exfalso. by apply (Hno t _ Hnew).
Qed.

Lemma X1_repeated_access_hits_witness :
  ∃ g c g1 c1 g2 c2,
    replay FullOrder [10; 11; 10; 12] (new_cache 1 2) 2 1 1 globals0 =
      Some (g, c) ∧
    CacheAccess FullOrder 13 c 2 1 1 g = Some (g1, c1) ∧
    CacheAccess FullOrder 13 c1 2 1 1 g1 = Some (g2, c2) ∧
    outcome_of g1 g2 = Hit ∧
    hit g2 = to_int (hit g1 + 1) ∧ miss g2 = miss g1.
Proof.
  apply (X1_repeated_access_hits FullOrder 2 1 1 [10; 11; 10; 12] 13); lia.
Defined.

(** X2. Compulsory misses: an access whose block (set index and tag) no
    earlier access of the run addressed returns and is a miss, under either
    program; in particular the first access of a run. *)
Theorem X2_first_use_misses p setAssociativity blockSize cacheLineNum trace a :
  1 ≤ setAssociativity → 1 ≤ cacheLineNum →
  (∀ a0, a0 ∈ trace →
     getIndex a0 blockSize cacheLineNum = getIndex a blockSize cacheLineNum →
     getTag a0 blockSize cacheLineNum ≠ getTag a blockSize cacheLineNum) →
  ∃ g c g' c',
    replay p trace (new_cache cacheLineNum setAssociativity) setAssociativity
      blockSize cacheLineNum globals0 = Some (g, c) ∧
    CacheAccess p a c setAssociativity blockSize cacheLineNum g = Some (g', c') ∧
    outcome_of g g' = Miss ∧
    hit g' = hit g ∧ miss g' = to_int (miss g + 1).
Proof.
  intros Ha Hs Hfresh.
  destruct (run_resident p setAssociativity blockSize cacheLineNum Ha Hs trace)
    as (g & c & Hrun & Hok & Hres).
  destruct (CacheAccess_lines p setAssociativity blockSize cacheLineNum Ha Hs
              a c g Hok)
    as (t & g' & c' & Hacc & _ & _ & _ & _ & _ & _ & _ & _ & Hcase).
  exists g, c, g', c'. split; [done|]. split; [done|].
  destruct Hcase as [((l & Hl & Hv & Ht) & _)|(_ & _ & Hh & Hm)].
  - exfalso.
    destruct (Hres _ _ _ Hl Hv) as (a0 & Ha0 & Hi0 & Ht0).
    apply (Hfresh a0 Ha0); [|congruence].
    pose proof (getIndex_bound a0 blockSize cacheLineNum Hs).
    pose proof (getIndex_bound a blockSize cacheLineNum Hs).
    apply Z2Nat.inj; lia.
  - split; [by apply outcome_of_miss|done].
Qed.

Lemma X2_first_use_misses_witness :
  ∃ g c g' c',
    replay TouchOnly [0x10; 0x20; 0x10] (new_cache 4 2) 2 4 4 globals0 =
      Some (g, c) ∧
    CacheAccess TouchOnly 0x30 c 2 4 4 g = Some (g', c') ∧
    outcome_of g g' = Miss ∧
    hit g' = hit g ∧ miss g' = to_int (miss g + 1).
Proof.
  apply (X2_first_use_misses TouchOnly 2 4 4 [0x10; 0x20; 0x10] 0x30);
    [lia | lia |].
  intros a0 Ha0 _.
  apply elem_of_cons in Ha0 as [->|Ha0]; [vm_compute; discriminate|].
  apply elem_of_cons in Ha0 as [->|Ha0]; [vm_compute; discriminate|].
  apply elem_of_cons in Ha0 as [->|Ha0]; [vm_compute; discriminate|].
  by apply not_elem_of_nil in Ha0.
Defined.

(** ** Recency *)

(** X3. While the number of accesses fits an [int]: [accesscount] is the
    number of accesses of the run, every valid line carries an [LRUcount] in
    [0, accesscount), and every invalid line is still as the constructor
    left it (tag 0, [LRUcount] 0). Under either program. *)
Theorem X3_accesscount_and_stamps p setAssociativity blockSize cacheLineNum trace :
  1 ≤ setAssociativity → 1 ≤ cacheLineNum →
  Z.of_nat (length trace) ≤ INT_MAX →
  ∃ g c,
    replay p trace (new_cache cacheLineNum setAssociativity) setAssociativity
      blockSize cacheLineNum globals0 = Some (g, c) ∧
    accesscount g = Z.of_nat (length trace) ∧
    ∀ (j i : nat) l, line_at c j i l →
      if valid l then 0 ≤ LRUcount l < accesscount g else l = default_line.
Proof.
  intros Ha Hs Hmax.
  destruct (run_stamped p setAssociativity blockSize cacheLineNum Ha Hs trace)
    as (g & c & Hrun & _ & Hst).
  destruct (Hst Hmax) as [Hac Hlines].
  exists g, c. split; [done|]. split; [done|]. by rewrite Hac.
Qed.

Lemma X3_accesscount_and_stamps_witness :
  ∃ g c,
    replay FullOrder [10; 11; 10; 12] (new_cache 2 2) 2 1 2 globals0 =
      Some (g, c) ∧
    accesscount g = Z.of_nat (length [10; 11; 10; 12]) ∧
    ∀ (j i : nat) l, line_at c j i l →
      if valid l then 0 ≤ LRUcount l < accesscount g else l = default_line.
Proof.
  apply (X3_accesscount_and_stamps FullOrder 2 1 2 [10; 11; 10; 12]);
    [lia | lia | vm_compute; discriminate].
Defined.

(** The stamps of IMT2023048_031_045_Code.cpp. *)
Lemma touch_only_last_use setAssociativity blockSize cacheLineNum trace :
  1 ≤ setAssociativity → 1 ≤ cacheLineNum →
  ∃ g c,
    replay TouchOnly trace (new_cache cacheLineNum setAssociativity)
      setAssociativity blockSize cacheLineNum globals0 = Some (g, c) ∧
    cache_ok (Z.to_nat cacheLineNum) (Z.to_nat setAssociativity) c ∧
    (Z.of_nat (length trace) ≤ INT_MAX →
     accesscount g = Z.of_nat (length trace) ∧
     stamp_is_last_use blockSize cacheLineNum trace c).
Proof.
  intros Ha Hs.
  apply (replay_invariant TouchOnly setAssociativity blockSize cacheLineNum Ha Hs
           (λ tr g c,
              Z.of_nat (length tr) ≤ INT_MAX →
              accesscount g = Z.of_nat (length tr) ∧
              stamp_is_last_use blockSize cacheLineNum tr c)).
  - intros _. split; [done|].
    intros j i l (m & Hm & Hl) Hv. unfold new_cache in Hm.
    apply lookup_replicate in Hm as [-> _]. simpl in Hl.
    apply lookup_replicate in Hl as [-> _]. done.
  - intros tr g c a g' c' Hok IH Hacc Hmax.
    rewrite length_app in *. simpl in *.
    destruct IH as [Hac Hlast]; [lia|].
    destruct (CacheAccess_lines TouchOnly setAssociativity blockSize cacheLineNum
                Ha Hs a c g Hok)
      as (t & g1 & c1 & Hacc1 & _ & _ & _ & Hac1 & _ & _ & Hback & _ & Hcase).
    rewrite Hacc in Hacc1. injection Hacc1 as <- <-.
    split.
    { rewrite Hac1, Hac. rewrite to_int_succ; lia. }
    intros j i l' Hl' Hv'.
    destruct (Hback j i l' Hl') as [(-> & -> & ->)|(Hpos & l & Hl & Hv & _ & Hsame & _)].
    + exists (length tr), a. simpl. split; [done|].
      split; [by apply list_lookup_middle|]. split; [done|].
      intros pos' a' Hlt Hlook. apply lookup_lt_Some in Hlook.
      rewrite length_app in Hlook. simpl in Hlook. lia.
    + rewrite (Hsame (or_introl eq_refl)) in *. clear Hsame Hv.
      destruct (Hlast j i l Hl Hv') as (pos & a0 & Hc & Hlook & Huse & Hlater).
      exists pos, a0. split; [done|].
      split; [by apply lookup_app_l_Some|]. split; [done|].
      intros pos' a' Hlt Hlook'.
      apply lookup_snoc_Some in Hlook' as [[_ Hlook']|[_ <-]].
      * by apply (Hlater pos' a').
      * intros [Hj Htag]. subst j.
        assert (Hi : i ≠ t) by (destruct Hpos; done).
        destruct Hcase as [((l0 & Hl0 & Hv0 & Ht0) & _)|(Hno & _)].
        -- apply Hi.
           eapply (line_at_unique_tag _ _ c _ i t l l0); eauto. congruence.
        -- by apply (Hno i l Hl Hv').
Qed.

(** X4. In IMT2023048_031_045_Code.cpp, while the number of accesses fits
    an [int], the [LRUcount] of a valid line is the position in the trace
    (from 0) of the last access to the tag of that line in its set. *)
Theorem X4_touch_only_stamp_is_last_use setAssociativity blockSize cacheLineNum trace :
  1 ≤ setAssociativity → 1 ≤ cacheLineNum →
  Z.of_nat (length trace) ≤ INT_MAX →
  ∃ g c,
    replay TouchOnly trace (new_cache cacheLineNum setAssociativity)
      setAssociativity blockSize cacheLineNum globals0 = Some (g, c) ∧
    stamp_is_last_use blockSize cacheLineNum trace c.
Proof.
  intros Ha Hs Hmax.
  destruct (touch_only_last_use setAssociativity blockSize cacheLineNum trace
              Ha Hs) as (g & c & Hrun & _ & Hlast).
  exists g, c. split; [done|]. by apply Hlast.
Qed.

Lemma X4_touch_only_stamp_is_last_use_witness :
  ∃ g c,
    replay TouchOnly [10; 11; 10; 12] (new_cache 1 2) 2 1 1 globals0 =
      Some (g, c) ∧
    stamp_is_last_use 1 1 [10; 11; 10; 12] c.
Proof.
  apply (X4_touch_only_stamp_is_last_use 2 1 1 [10; 11; 10; 12]);
    [lia | lia | vm_compute; discriminate].
Defined.

(** X5. IMT2023048_031_045_Code.cpp evicts the least recently used line.
    In a cache reached by fewer than [INT_MAX] accesses, an access that
    finds every line of its set valid and none holding its tag returns,
    and the line it overwrites held the tag whose last access lies furthest
    back: strictly before the last access to the tag of every other line
    of the set. *)
Theorem X5_touch_only_evicts_lru setAssociativity blockSize cacheLineNum trace a :
  1 ≤ setAssociativity → 1 ≤ cacheLineNum →
  Z.of_nat (length trace) < INT_MAX →
  let index := Z.to_nat (getIndex a blockSize cacheLineNum) in
  let tg := getTag a blockSize cacheLineNum in
  ∃ g c,
    replay TouchOnly trace (new_cache cacheLineNum setAssociativity)
      setAssociativity blockSize cacheLineNum globals0 = Some (g, c) ∧
    ((∀ (i : nat) l, line_at c index i l → valid l = true ∧ tag l ≠ tg) →
     ∃ (t : nat) lt g' c' (pos_t : nat),
       CacheAccess TouchOnly a c setAssociativity blockSize cacheLineNum g =
         Some (g', c') ∧
       line_at c index t lt ∧
       line_at c' index t (mkCacheLine true tg (Z.of_nat (length trace))) ∧
       last_use blockSize cacheLineNum trace index (tag lt) pos_t ∧
       ∀ (i : nat) l, i ≠ t → line_at c index i l →
         ∃ pos_i : nat,
           last_use blockSize cacheLineNum trace index (tag l) pos_i ∧
           (pos_t < pos_i)%nat).
Proof.
  intros Ha Hs Hmax index tg.
  destruct (touch_only_last_use setAssociativity blockSize cacheLineNum trace
              Ha Hs) as (g & c & Hrun & Hok & Hlast).
  destruct Hlast as [Hac Hlast]; [lia|].
  exists g, c. split; [done|]. intros Hfull.
  destruct (CacheAccess_lines TouchOnly setAssociativity blockSize cacheLineNum
              Ha Hs a c g Hok)
    as (t & g' & c' & Hacc & _ & _ & _ & _ & Hnew & _ & _ & _ & Hcase).
  fold index tg in Hnew, Hcase.
  destruct Hcase as [((l & Hl & Hv & Ht) & _)|(_ & (m & Hm & Hvictim) & _)].
  { exfalso. by apply (Hfull t l Hl). }
  destruct Hvictim as (lt & Hlt & _ & Hmin).
  assert (Hat : line_at c index t lt) by (by exists m).
  destruct (Hfull t lt Hat) as [Hvt _].
  destruct (Hlast index t lt Hat Hvt) as (pos_t & a_t & Hct & Hlook_t & Huse_t & Hlater_t).
  exists t, lt, g', c', pos_t.
  split; [done|]. split; [done|]. split; [by rewrite <- Hac|].
  split; [by exists a_t|].
  intros i l Hi Hl.
  destruct (Hfull i l Hl) as [Hvl _].
  destruct (Hlast index i l Hl Hvl) as (pos_i & a_i & Hci & Hlook_i & Huse_i & Hlater_i).
  exists pos_i. split; [by exists a_i|].
  (* the two stamps differ, because the two tags do *)
  assert (Hne : pos_t ≠ pos_i).
  { intros ->. rewrite Hlook_t in Hlook_i. injection Hlook_i as <-.
    destruct Huse_t as [_ Ht1], Huse_i as [_ Ht2].
    apply Hi. symmetry.
    eapply (line_at_unique_tag _ _ c index t i lt l); eauto. congruence. }
  (* and the scan took the smallest *)
  destruct Hmin as [Hle _].
  { intros j l0 Hl0. by apply (Hfull j l0); exists m. }
  destruct Hl as (m' & Hm' & Hl). rewrite Hm in Hm'. injection Hm' as <-.
  specialize (Hle i l Hl).
  assert (Hu : ∀ x : nat, Z.of_nat x ≤ Z.of_nat (length trace) →
                          to_uint32 (Z.of_nat x) = Z.of_nat x).
  { intros x Hx. apply to_uint32_id. unfold INT_MAX in Hmax. lia. }
  assert (Hpt : (pos_t < length trace)%nat) by (by eapply lookup_lt_Some).
  assert (Hpi : (pos_i < length trace)%nat) by (by eapply lookup_lt_Some).
  unfold recency_u32 in Hle. rewrite Hct, Hci in Hle.
  rewrite !Hu in Hle by lia. lia.
Qed.

Lemma X5_touch_only_evicts_lru_witness :
  ∃ (t : nat) lt g' c' (pos_t : nat),
    CacheAccess TouchOnly 12
      [ {| lines := [mkCacheLine true 10 2; mkCacheLine true 11 1] |} ]
      2 1 1 {| hit := 1; miss := 2; accesscount := 3 |} = Some (g', c') ∧
    line_at [ {| lines := [mkCacheLine true 10 2; mkCacheLine true 11 1] |} ]
      0 t lt ∧
    line_at c' 0 t (mkCacheLine true 12 3) ∧
    last_use 1 1 [10; 11; 10] 0 (tag lt) pos_t ∧
    ∀ (i : nat) l, i ≠ t →
      line_at [ {| lines := [mkCacheLine true 10 2; mkCacheLine true 11 1] |} ]
        0 i l →
      ∃ pos_i : nat, last_use 1 1 [10; 11; 10] 0 (tag l) pos_i ∧ (pos_t < pos_i)%nat.
Proof.
  destruct (X5_touch_only_evicts_lru 2 1 1 [10; 11; 10] 12)
    as (g & c & Hrun & Hevict); [lia | lia | vm_compute; reflexivity |].
  vm_compute in Hrun. injection Hrun as <- <-.
  apply Hevict.
  intros i l (m & Hm & Hl). vm_compute in Hm. injection Hm as <-.
  destruct i as [|[|i]]; simpl in Hl; try discriminate;
    injection Hl as <-; (split; [reflexivity | vm_compute; discriminate]).
Defined.

(** ** What an access leaves alone *)

Lemma replay_keeps_valid p setAssociativity blockSize cacheLineNum trace :
  1 ≤ setAssociativity → 1 ≤ cacheLineNum →
  ∀ c g,
    cache_ok (Z.to_nat cacheLineNum) (Z.to_nat setAssociativity) c →
    ∃ g' c',
      replay p trace c setAssociativity blockSize cacheLineNum g = Some (g', c') ∧
      ∀ (j i : nat) l, line_at c j i l → valid l = true →
        ∃ l', line_at c' j i l' ∧ valid l' = true.
Proof.
  intros Ha Hs. induction trace as [|a rest IH]; intros c g Hok; simpl.
  - exists g, c. split; [done|]. intros j i l Hl Hv. by exists l.
  - destruct (CacheAccess_lines p setAssociativity blockSize cacheLineNum Ha Hs
                a c g Hok)
      as (t & g1 & c1 & Hacc & Hok1 & _ & _ & _ & Hnew & _ & _ & Hfwd & _).
    rewrite Hacc. simpl.
    destruct (IH c1 g1 Hok1) as (g' & c' & Hrun & Hkeep).
    exists g', c'. split; [done|].
    intros j i l Hl Hv.
    destruct (decide (j = Z.to_nat (getIndex a blockSize cacheLineNum) ∧ i = t))
      as [[-> ->]|Hpos].
    + by apply (Hkeep _ _ _ Hnew).
    + destruct (Hfwd j i l Hl) as (l1 & Hl1 & Hv1 & _).
      { destruct (decide (j = Z.to_nat (getIndex a blockSize cacheLineNum)))
          as [Hj|Hj]; [right|left; exact Hj].
        intros Hi. apply Hpos. by split. }
      apply (Hkeep _ _ _ Hl1). congruence.
Qed.

(** X6. No line is ever invalidated: a line that is valid at some point of
    a run is valid at every later point (with whatever tag it then holds).
    Under either program. *)
Theorem X6_valid_lines_stay_valid p setAssociativity blockSize cacheLineNum t1 t2 :
  1 ≤ setAssociativity → 1 ≤ cacheLineNum →
  ∃ g1 c1 g2 c2,
    replay p t1 (new_cache cacheLineNum setAssociativity) setAssociativity
      blockSize cacheLineNum globals0 = Some (g1, c1) ∧
    replay p (t1 ++ t2) (new_cache cacheLineNum setAssociativity)
      setAssociativity blockSize cacheLineNum globals0 = Some (g2, c2) ∧
    ∀ (j i : nat) l, line_at c1 j i l → valid l = true →
      ∃ l', line_at c2 j i l' ∧ valid l' = true.
Proof.
  intros Ha Hs.
  destruct (run_ok p setAssociativity blockSize cacheLineNum Ha Hs t1)
    as (g1 & c1 & Hrun1 & Hok1 & _).
  destruct (replay_keeps_valid p setAssociativity blockSize cacheLineNum t2
              Ha Hs c1 g1 Hok1) as (g2 & c2 & Hrun2 & Hkeep).
  exists g1, c1, g2, c2. split; [done|]. split; [|done].
  rewrite replay_app, Hrun1. simpl. done.
Qed.

Lemma X6_valid_lines_stay_valid_witness :
  ∃ g1 c1 g2 c2,
    replay FullOrder [10; 11] (new_cache 1 2) 2 1 1 globals0 = Some (g1, c1) ∧
    replay FullOrder ([10; 11] ++ [12; 13; 10]) (new_cache 1 2) 2 1 1 globals0 =
      Some (g2, c2) ∧
    ∀ (j i : nat) l, line_at c1 j i l → valid l = true →
      ∃ l', line_at c2 j i l' ∧ valid l' = true.
Proof.
  apply (X6_valid_lines_stay_valid FullOrder 2 1 1 [10; 11] [12; 13; 10]); lia.
Defined.

(** X7. An access writes one set only, and there changes the tag or the
    validity of one line at most: every other set of the cache is as it was,
    and so are validity and tag of every other line of the addressed set.
    Under either program, in every cache of a run. *)
Theorem X7_access_is_local p setAssociativity blockSize cacheLineNum trace a :
  1 ≤ setAssociativity → 1 ≤ cacheLineNum →
  let index := Z.to_nat (getIndex a blockSize cacheLineNum) in
  ∃ g c g' c' (t : nat),
    replay p trace (new_cache cacheLineNum setAssociativity) setAssociativity
      blockSize cacheLineNum globals0 = Some (g, c) ∧
    CacheAccess p a c setAssociativity blockSize cacheLineNum g = Some (g', c') ∧
    length c' = length c ∧
    (∀ j : nat, j ≠ index → c' !! j = c !! j) ∧
    ∀ (i : nat) l, i ≠ t → line_at c index i l →
      ∃ l', line_at c' index i l' ∧ valid l' = valid l ∧ tag l' = tag l.
Proof.
  intros Ha Hs index.
  destruct (run_ok p setAssociativity blockSize cacheLineNum Ha Hs trace)
    as (g & c & Hrun & Hok & _).
  destruct (CacheAccess_lines p setAssociativity blockSize cacheLineNum Ha Hs
              a c g Hok)
    as (t & g' & c' & Hacc & Hok' & _ & _ & _ & _ & Hframe & _ & Hfwd & _).
  exists g, c, g', c', t. split; [done|]. split; [done|].
  split; [destruct Hok as [-> _], Hok' as [-> _]; done|].
  split; [done|].
  intros i l Hi Hl.
  destruct (Hfwd index i l Hl) as (l' & Hl' & Hv & Htg & _); [by right|].
  by exists l'.
Qed.

Lemma X7_access_is_local_witness :
  let index := Z.to_nat (getIndex 0x30 4 4) in
  ∃ g c g' c' (t : nat),
    replay FullOrder [0x10; 0x24; 0x10] (new_cache 4 2) 2 4 4 globals0 =
      Some (g, c) ∧
    CacheAccess FullOrder 0x30 c 2 4 4 g = Some (g', c') ∧
    length c' = length c ∧
    (∀ j : nat, j ≠ index → c' !! j = c !! j) ∧
    ∀ (i : nat) l, i ≠ t → line_at c index i l →
      ∃ l', line_at c' index i l' ∧ valid l' = valid l ∧ tag l' = tag l.
Proof.
  apply (X7_access_is_local FullOrder 2 4 4 [0x10; 0x24; 0x10] 0x30); lia.
Defined.

(** ** The most recently used line *)

Lemma all_valid_or_not (ls : list CacheLine) :
  (∀ (j : nat) l, ls !! j = Some l → valid l = true) ∨
  (∃ (j : nat) l, ls !! j = Some l ∧ valid l = false).
Proof.
  induction ls as [|x ls IH].
  - left. intros j l Hl. done.
  - destruct (valid x) eqn:Hx.
    + destruct IH as [Hall|(j & l & Hl & Hv)].
      * left. intros [|j] l Hl; simpl in Hl; [by injection Hl as <-|by eapply Hall].
      * right. by exists (S j), l.
    + right. by exists 0%nat, x.
Qed.

(** X8. IMT2023048_031_045_Code.cpp never evicts the line it used last.
    With at least two lines per set and the access count within [int]:
    after an access to [a] and then one access to any address [b], an
    access to [a] is a hit. (modified.cpp does not have this property: the
    trace A, B, A, C, A of C1 ends in a miss there.) *)
Theorem X8_touch_only_keeps_last_used setAssociativity blockSize cacheLineNum trace a b :
  2 ≤ setAssociativity → 1 ≤ cacheLineNum →
  Z.of_nat (length trace) ≤ INT_MAX →
  ∃ g0 c0 g1 c1 g2 c2 g3 c3,
    replay TouchOnly trace (new_cache cacheLineNum setAssociativity)
      setAssociativity blockSize cacheLineNum globals0 = Some (g0, c0) ∧
    CacheAccess TouchOnly a c0 setAssociativity blockSize cacheLineNum g0 =
      Some (g1, c1) ∧
    CacheAccess TouchOnly b c1 setAssociativity blockSize cacheLineNum g1 =
      Some (g2, c2) ∧
    CacheAccess TouchOnly a c2 setAssociativity blockSize cacheLineNum g2 =
      Some (g3, c3) ∧
    outcome_of g2 g3 = Hit ∧ hit g3 = to_int (hit g2 + 1).
Proof.
  intros Ha2 Hs Hmax.
  assert (Ha : 1 ≤ setAssociativity) by lia.
  destruct (run_stamped TouchOnly setAssociativity blockSize cacheLineNum Ha Hs
              trace) as (g0 & c0 & Hrun & Hok0 & Hst).
  destruct (Hst Hmax) as [Hac Hstamps]. clear Hst.
  set (ia := Z.to_nat (getIndex a blockSize cacheLineNum)).
  set (ta := getTag a blockSize cacheLineNum).
  destruct (CacheAccess_lines TouchOnly setAssociativity blockSize cacheLineNum
              Ha Hs a c0 g0 Hok0)
    as (t & g1 & c1 & Hacc1 & Hok1 & _ & Ht & _ & Hnew1 & _ & Hback1 & _).
  fold ia ta in Hnew1, Hback1.
  destruct (CacheAccess_lines TouchOnly setAssociativity blockSize cacheLineNum
              Ha Hs b c1 g1 Hok1)
    as (t2 & g2 & c2 & Hacc2 & Hok2 & _ & _ & _ & Hnew2 & _ & _ & Hfwd2 & Hcase2).
  set (ib := Z.to_nat (getIndex b blockSize cacheLineNum)) in *.
  set (tb := getTag b blockSize cacheLineNum) in *.
  destruct (CacheAccess_lines TouchOnly setAssociativity blockSize cacheLineNum
              Ha Hs a c2 g2 Hok2)
    as (t3 & g3 & c3 & Hacc3 & _ & _ & _ & _ & _ & _ & _ & _ & Hcase3).
  fold ia ta in Hcase3.
  exists g0, c0, g1, c1, g2, c2, g3, c3.
  split; [done|]. split; [done|]. split; [done|]. split; [done|].
  (* the line of [a] is still there after the access to [b] *)
  assert (Hstill : ∃ l2, line_at c2 ia t l2 ∧ valid l2 = true ∧ tag l2 = ta).
  { destruct (decide (ia = ib ∧ t = t2)) as [[Hi ->]|Hpos].
    - rewrite <- Hi in *.
      destruct Hcase2 as [((l & Hl & Hv & Htg) & _)|(_ & (m & Hm & Hvictim) & _)].
      + rewrite (line_at_inj _ _ _ _ _ Hl Hnew1) in Htg. simpl in Htg.
        rewrite <- Htg in Hnew2. by eexists.
      + exfalso.
        destruct Hvictim as (lt & Hlt & Hinv & Hmin).
        assert (lt = mkCacheLine true ta (accesscount g0)) as ->.
        { apply (line_at_inj c1 ia t2); [by exists m|done]. }
        destruct Hok1 as [_ Hall1].
        destruct (Forall_lookup_1 _ _ _ _ Hall1 Hm) as [Hlen _].
        destruct (all_valid_or_not (lines m)) as [Hall|Hsome].
        * destruct (Hmin Hall) as [Hle _].
          set (i0 := if decide (t2 = 0%nat) then 1%nat else 0%nat).
          assert (Hi0 : i0 ≠ t2) by (unfold i0; case_decide; lia).
          destruct (lookup_lt_is_Some_2 (lines m) i0) as [l0 Hl0].
          { rewrite Hlen. unfold i0. case_decide; lia. }
          specialize (Hle i0 l0 Hl0). specialize (Hall i0 l0 Hl0).
          destruct (Hback1 ia i0 l0) as [(_ & E & _)|(_ & l & Hl & _ & _ & Hsame & _)];
            [by exists m|done|].
          rewrite (Hsame (or_introl eq_refl)) in *.
          specialize (Hstamps ia i0 l Hl). rewrite Hall in Hstamps.
          unfold recency_u32 in Hle. simpl in Hle.
          unfold INT_MAX in Hmax.
          rewrite !to_uint32_id in Hle by lia. lia.
        * destruct (Hinv Hsome) as [Hf _]. done.
    - destruct (Hfwd2 ia t _ Hnew1) as (l' & Hl' & Hv' & Ht' & _).
      { destruct (decide (ia = ib)) as [Hi|Hi]; [right|left; exact Hi].
        intros Hte. apply Hpos. by split. }
      by exists l'. }
  destruct Hstill as (l2 & Hl2 & Hv2 & Ht2).
  destruct Hcase3 as [(_ & Hh & Hm)|(Hno & _)].
  - split; [by apply outcome_of_hit|done].
  - exfalso. by apply (Hno t l2).
Qed.

Lemma X8_touch_only_keeps_last_used_witness :
  ∃ g0 c0 g1 c1 g2 c2 g3 c3,
    replay TouchOnly [10; 11] (new_cache 1 2) 2 1 1 globals0 = Some (g0, c0) ∧
    CacheAccess TouchOnly 10 c0 2 1 1 g0 = Some (g1, c1) ∧
    CacheAccess TouchOnly 12 c1 2 1 1 g1 = Some (g2, c2) ∧
    CacheAccess TouchOnly 10 c2 2 1 1 g2 = Some (g3, c3) ∧
    outcome_of g2 g3 = Hit ∧ hit g3 = to_int (hit g2 + 1).
Proof.
  apply (X8_touch_only_keeps_last_used 2 1 1 [10; 11] 10 12);
    [lia | lia | vm_compute; discriminate].
Defined.

(** ** One line per set *)

(** X9. Direct-mapped cache ([setAssociativity = 1]): an access is a hit
    exactly when the previous access to its set had the same tag. Stated
    for two accesses in a row to one set, in every cache of a run, under
    either program. *)
Theorem X9_direct_mapped_hit_iff_same_tag p blockSize cacheLineNum trace a b :
  1 ≤ cacheLineNum →
  getIndex a blockSize cacheLineNum = getIndex b blockSize cacheLineNum →
  ∃ g c g1 c1 g2 c2,
    replay p trace (new_cache cacheLineNum 1) 1 blockSize cacheLineNum globals0 =
      Some (g, c) ∧
    CacheAccess p a c 1 blockSize cacheLineNum g = Some (g1, c1) ∧
    CacheAccess p b c1 1 blockSize cacheLineNum g1 = Some (g2, c2) ∧
    (outcome_of g1 g2 = Hit ↔
     getTag b blockSize cacheLineNum = getTag a blockSize cacheLineNum).
Proof.
  intros Hs Hidx.
  assert (Ha : 1 ≤ 1) by lia.
  destruct (run_ok p 1 blockSize cacheLineNum Ha Hs trace)
    as (g & c & Hrun & Hok & _).
  destruct (CacheAccess_lines p 1 blockSize cacheLineNum Ha Hs a c g Hok)
    as (t & g1 & c1 & Hacc1 & Hok1 & _ & Ht & _ & Hnew & _).
  destruct (CacheAccess_lines p 1 blockSize cacheLineNum Ha Hs b c1 g1 Hok1)
    as (t2 & g2 & c2 & Hacc2 & _ & _ & Ht2 & _ & _ & _ & _ & _ & Hcase).
  rewrite <- Hidx in Hcase.
  assert (t = 0%nat) as -> by lia. assert (t2 = 0%nat) as -> by lia.
  exists g, c, g1, c1, g2, c2. split; [done|]. split; [done|]. split; [done|].
  destruct Hcase as [((l & Hl & Hv & Htg) & _ & Hm)|(Hno & _ & _ & Hm)].
  - rewrite (line_at_inj _ _ _ _ _ Hl Hnew) in Htg. simpl in Htg.
    split; [done|]. intros _. by apply outcome_of_hit.
  - rewrite (outcome_of_miss _ _ Hm). split; [done|].
    intros E. exfalso. apply (Hno 0%nat _ Hnew); [done|]. by symmetry.
Qed.

Lemma X9_direct_mapped_hit_iff_same_tag_witness :
  ∃ g c g1 c1 g2 c2,
    replay TouchOnly [0x0; 0x40] (new_cache 4 1) 1 16 4 globals0 = Some (g, c) ∧
    CacheAccess TouchOnly 0x10 c 1 16 4 g = Some (g1, c1) ∧
    CacheAccess TouchOnly 0x50 c1 1 16 4 g1 = Some (g2, c2) ∧
    (outcome_of g1 g2 = Hit ↔ getTag 0x50 16 4 = getTag 0x10 16 4).
Proof.
  apply (X9_direct_mapped_hit_iff_same_tag TouchOnly 16 4 [0x0; 0x40] 0x10 0x50);
    [lia | reflexivity].
Defined.

Lemma CacheAccess_one_way a c blockSize cacheLineNum g :
  CacheAccess TouchOnly a c 1 blockSize cacheLineNum g =
  CacheAccess FullOrder a c 1 blockSize cacheLineNum g.
Proof.
  unfold CacheAccess. change (Z.to_nat 1) with 1%nat.
  destruct (c !! Z.to_nat (getIndex a blockSize cacheLineNum)) as [m|]; [|done].
  simpl. destruct (lines m !! 0%nat) as [l|] eqn:E; [|done]. simpl.
  destruct (valid l && (tag l =? getTag a blockSize cacheLineNum)); simpl.
  - rewrite E. simpl. done.
  - destruct (valid l); simpl.
    + destruct (to_uint32 (LRUcount l) <? UINT32_MAX); simpl; rewrite E; done.
    + rewrite E. done.
Qed.

Lemma replay_one_way trace blockSize cacheLineNum : ∀ c g,
  replay TouchOnly trace c 1 blockSize cacheLineNum g =
  replay FullOrder trace c 1 blockSize cacheLineNum g.
Proof.
  induction trace as [|a rest IH]; intros c g; simpl; [done|].
  rewrite CacheAccess_one_way.
  destruct (CacheAccess FullOrder a c 1 blockSize cacheLineNum g) as [[g1 c1]|];
    simpl; [apply IH|done].
Qed.

(** X10. With one line per set the two programs are the same program: for
    every cache size, block size, trace file and file system,
    [simulateCache] of IMT2023048_031_045_Code.cpp and of modified.cpp
    return the same counters and write the same row or message. *)
Theorem X10_one_way_programs_agree cacheSize blockSize traceFile fs g :
  simulateCache TouchOnly cacheSize blockSize 1 traceFile fs g =
  simulateCache FullOrder cacheSize blockSize 1 traceFile fs g.
Proof.
  unfold simulateCache.
  destruct (to_uint32 (blockSize * to_uint32 1) =? 0); [done|].
  destruct (cacheSize / to_uint32 (blockSize * to_uint32 1) =? 0); [done|].
  simpl. destruct (fs traceFile) as [trace|]; [|done].
  by rewrite replay_one_way.
Qed.

(** ** Address decoding *)

Lemma decode_div_mod a b k :
  0 ≤ b ≤ 31 → 0 ≤ k ≤ 31 → b + k < 32 →
  getIndex a (2 ^ b) (2 ^ k) = (a / 2 ^ b) mod 2 ^ k ∧
  getTag a (2 ^ b) (2 ^ k) = (a / 2 ^ b) / 2 ^ k.
Proof.
  intros Hb Hk Hsum. split.
  - rewrite getIndex_mod by (pose proof (Z.pow_pos_nonneg 2 k); lia).
    rewrite !Z.log2_pow2 by lia. rewrite Z.min_l by lia.
    by rewrite Z.shiftr_div_pow2 by lia.
  - unfold getTag, log2_uint32. rewrite !Z.log2_pow2 by lia.
    rewrite to_uint32_id by lia. rewrite Z.mod_small by lia.
    rewrite <- Z.shiftr_shiftr by lia.
    by rewrite !Z.shiftr_div_pow2 by lia.
Qed.

(** X11. For a block size 2^b and a set count 2^k with b + k < 32 (the
    shift of [getTag] stays within the 32-bit address), tag and index are
    the quotient and the remainder of the block number
    [address / blockSize] by the set count: the block number is
    [tag * numSets + index], and two addresses decode to the same set and
    tag exactly when they lie in the same block. *)
Theorem X11_tag_and_index_identify_the_block a blockSize numSets b k :
  0 ≤ b ≤ 31 → 0 ≤ k ≤ 31 → b + k < 32 →
  blockSize = 2 ^ b → numSets = 2 ^ k →
  a / blockSize = getTag a blockSize numSets * numSets +
                  getIndex a blockSize numSets ∧
  ∀ a',
    (getIndex a' blockSize numSets = getIndex a blockSize numSets ∧
     getTag a' blockSize numSets = getTag a blockSize numSets) ↔
    a' / blockSize = a / blockSize.
Proof.
  intros Hb Hk Hsum -> ->.
  assert (Hpos : 0 < 2 ^ k) by (apply Z.pow_pos_nonneg; lia).
  assert (Hdm : ∀ x, x / 2 ^ b = getTag x (2 ^ b) (2 ^ k) * 2 ^ k +
                                 getIndex x (2 ^ b) (2 ^ k)).
  { intros x. destruct (decode_div_mod x b k Hb Hk Hsum) as [-> ->].
    rewrite Z.mul_comm. apply Z.div_mod. lia. }
  split; [apply Hdm|].
  intros a'. split.
  - intros [Hi Ht]. rewrite (Hdm a'), (Hdm a). by rewrite Hi, Ht.
  - intros E.
    destruct (decode_div_mod a b k Hb Hk Hsum) as [-> ->].
    destruct (decode_div_mod a' b k Hb Hk Hsum) as [-> ->].
    by rewrite E.
Qed.

Lemma X11_tag_and_index_identify_the_block_witness :
  0x1234 / 16 = getTag 0x1234 16 64 * 64 + getIndex 0x1234 16 64 ∧
  ∀ a',
    (getIndex a' 16 64 = getIndex 0x1234 16 64 ∧
     getTag a' 16 64 = getTag 0x1234 16 64) ↔
    a' / 16 = 0x1234 / 16.
Proof.
  apply (X11_tag_and_index_identify_the_block 0x1234 16 64 4 6);
    [lia | lia | lia | reflexivity | reflexivity].
Defined.

(** ** A set count that is not a power of two *)

(** X12. [getIndex] masks with [2^floor(log2 cacheLineNum) - 1]: when the
    set count is not a power of two, the sets from index
    [2^floor(log2 cacheLineNum)] on are never addressed, and after any run
    they are still as constructed. Under either program. *)
Theorem X12_sets_beyond_the_mask_stay_new p setAssociativity blockSize cacheLineNum trace :
  1 ≤ setAssociativity → 1 ≤ cacheLineNum →
  ∃ g c,
    replay p trace (new_cache cacheLineNum setAssociativity) setAssociativity
      blockSize cacheLineNum globals0 = Some (g, c) ∧
    (∀ a, getIndex a blockSize cacheLineNum < 2 ^ Z.log2 cacheLineNum) ∧
    ∀ j : nat,
      2 ^ Z.log2 cacheLineNum ≤ Z.of_nat j → Z.of_nat j < cacheLineNum →
      c !! j = Some (new_CacheMem (Z.to_nat setAssociativity)).
Proof.
  intros Ha Hs.
  assert (Hidx : ∀ a, 0 ≤ getIndex a blockSize cacheLineNum
                      < 2 ^ Z.log2 cacheLineNum).
  { intros a. rewrite getIndex_mod by done.
    pose proof (Z.log2_nonneg cacheLineNum) as Hl.
    assert (0 < 2 ^ Z.min (Z.log2 cacheLineNum) 32)
      by (apply Z.pow_pos_nonneg; lia).
    assert (2 ^ Z.min (Z.log2 cacheLineNum) 32 ≤ 2 ^ Z.log2 cacheLineNum)
      by (apply Z.pow_le_mono_r; lia).
    pose proof (Z.mod_pos_bound (Z.shiftr a (Z.log2 blockSize))
                  (2 ^ Z.min (Z.log2 cacheLineNum) 32)).
    lia. }
  destruct (replay_invariant p setAssociativity blockSize cacheLineNum Ha Hs
              (λ tr g c, ∀ j : nat, 2 ^ Z.log2 cacheLineNum ≤ Z.of_nat j →
                 c !! j = new_cache cacheLineNum setAssociativity !! j))
    with (trace := trace) as (g & c & Hrun & _ & Hsame).
  - done.
  - intros tr g c a g' c' Hok IH Hacc j Hj.
    destruct (CacheAccess_lines p setAssociativity blockSize cacheLineNum Ha Hs
                a c g Hok)
      as (t & g1 & c1 & Hacc1 & _ & _ & _ & _ & _ & Hframe & _).
    rewrite Hacc in Hacc1. injection Hacc1 as <- <-.
    rewrite Hframe; [by apply IH|].
    specialize (Hidx a). lia.
  - exists g, c. split; [done|]. split; [intros a; apply Hidx|].
    intros j Hj Hlt. rewrite (Hsame j Hj).
    unfold new_cache. apply lookup_replicate_2. lia.
Qed.

Lemma X12_sets_beyond_the_mask_stay_new_witness :
  ∃ g c,
    replay TouchOnly [0; 1; 2; 3; 4; 5] (new_cache 3 2) 2 1 3 globals0 =
      Some (g, c) ∧
    c !! 2%nat = Some (new_CacheMem 2).
Proof.
  destruct (X12_sets_beyond_the_mask_stay_new TouchOnly 2 1 3 [0; 1; 2; 3; 4; 5])
    as (g & c & Hrun & _ & Hnew); [lia | lia |].
  exists g, c. split; [exact Hrun|].
  apply (Hnew 2%nat); [vm_compute; discriminate | lia].
Defined.

(** ** [simulateCache] and the sweep *)

Lemma config_runs_assoc c :
  config_runs c → config_sets c ≠ 0 →
  1 ≤ cfg_associativity c ∧ 1 ≤ config_sets c.
Proof.
  intros (Hdiv & Hassoc & Hsize) Hsets. split.
  - destruct (Z.eq_dec (cfg_associativity c) 0) as [E|]; [|lia].
    exfalso. apply Hdiv. rewrite E. by rewrite Z.mul_0_r.
  - pose proof (to_uint32_range
                  (cfg_blockSize c * to_uint32 (cfg_associativity c))).
    assert (0 ≤ config_sets c); [|lia].
    unfold config_sets. apply Z.div_pos; lia.
Qed.

(** [simulateCache], branch by branch. *)
Lemma simulateCache_cases p c fs g :
  config_runs c →
  ∃ g' o,
    simulateCache p (cfg_cacheSize c) (cfg_blockSize c) (cfg_associativity c)
      (cfg_traceFile c) fs g = Some (g', o) ∧
    (length (cerr o) + length (csv o) = 1)%nat ∧
    (config_sets c = 0 → g' = g ∧ csv o = []) ∧
    (config_sets c ≠ 0 → fs (cfg_traceFile c) = None →
     g' = globals0 ∧ csv o = [] ∧
     cerr o = [String.app "Unable to open file: " (cfg_traceFile c)]) ∧
    (config_sets c ≠ 0 → ∀ trace, fs (cfg_traceFile c) = Some trace →
     cerr o = [] ∧
     (∃ cache,
        replay p trace (new_cache (config_sets c) (cfg_associativity c))
          (cfg_associativity c) (cfg_blockSize c) (config_sets c) globals0 =
          Some (g', cache)) ∧
     (Z.of_nat (length trace) ≤ INT_MAX →
      hit g' + miss g' = Z.of_nat (length trace)) ∧
     ∃ row, csv o = [row] ∧ row_config row = reported c ∧
            row_hitRate row = hitRate g' ∧ row_missRate row = missRate g').
Proof.
  intros Hruns. pose proof Hruns as (Hdiv & Hassoc & Hsize).
  unfold simulateCache. fold (config_sets c).
  destruct (Z.eqb_spec (to_uint32 (cfg_blockSize c * to_uint32 (cfg_associativity c))) 0)
    as [E|_]; [done|].
  destruct (Z.eqb_spec (config_sets c) 0) as [Hz|Hnz].
  { eexists _, _. split; [done|]. simpl. repeat split; done. }
  destruct (Z.ltb_spec (cfg_associativity c) 0) as [E|_]; [lia|].
  destruct (config_runs_assoc c Hruns Hnz) as [Ha Hs].
  destruct (fs (cfg_traceFile c)) as [trace|] eqn:Hfile.
  - destruct (run_ok p (cfg_associativity c) (cfg_blockSize c) (config_sets c)
                Ha Hs trace) as (g' & cache & Hrun & _ & Hcnt).
    rewrite Hrun. simpl. eexists _, _. split; [done|]. simpl.
    split; [done|]. split; [done|]. split; [done|].
    intros _ trace' [= <-]. split; [done|]. split; [by exists cache|].
    split.
    + intros Hmax. by destruct (Hcnt Hmax) as (_ & Hsum & _).
    + eexists. split; [done|]. done.
  - eexists _, _. split; [done|]. simpl.
    split; [done|]. split; [done|]. split; [done|]. done.
Qed.

(** X13. For every configuration whose divisor [blockSize * associativity]
    is not zero, [simulateCache] returns and writes exactly one thing. When
    the set count is zero that is a message, and the counters are not
    touched. Otherwise the counters are reset; when the trace file cannot be
    opened that is a message naming the file, and the counters stay zero;
    when it can, that is one row, which reports the configuration (the cache
    size in KB) and the rates of the final counters of the replay, and those
    add up to the number of lines of the file (within [int]). *)
Theorem X13_simulateCache_one_output p c fs g :
  config_runs c →
  ∃ g' o,
    simulateCache p (cfg_cacheSize c) (cfg_blockSize c) (cfg_associativity c)
      (cfg_traceFile c) fs g = Some (g', o) ∧
    (length (cerr o) + length (csv o) = 1)%nat ∧
    (config_sets c = 0 → g' = g ∧ csv o = []) ∧
    (config_sets c ≠ 0 → fs (cfg_traceFile c) = None →
     g' = globals0 ∧ csv o = [] ∧
     cerr o = [String.app "Unable to open file: " (cfg_traceFile c)]) ∧
    (config_sets c ≠ 0 → ∀ trace, fs (cfg_traceFile c) = Some trace →
     cerr o = [] ∧
     (∃ cache,
        replay p trace (new_cache (config_sets c) (cfg_associativity c))
          (cfg_associativity c) (cfg_blockSize c) (config_sets c) globals0 =
          Some (g', cache)) ∧
     (Z.of_nat (length trace) ≤ INT_MAX →
      hit g' + miss g' = Z.of_nat (length trace)) ∧
     ∃ row, csv o = [row] ∧ row_config row = reported c ∧
            row_hitRate row = hitRate g' ∧ row_missRate row = missRate g').
Proof.
  intros Hruns.
  by apply simulateCache_cases.
Qed.

Lemma X13_simulateCache_one_output_witness :
  ∃ g' o,
    simulateCache FullOrder 64 4 2 "gcc.trace"
      (λ _, Some [0x0; 0x4; 0x0; 0x40]) globals0 = Some (g', o) ∧
    (length (cerr o) + length (csv o) = 1)%nat ∧
    cerr o = [] ∧
    hit g' + miss g' = 4 ∧
    ∃ row, csv o = [row] ∧
           row_config row = reported (mkConfig 64 4 2 "gcc.trace") ∧
           row_hitRate row = hitRate g' ∧ row_missRate row = missRate g'.
Proof.
  destruct (X13_simulateCache_one_output FullOrder (mkConfig 64 4 2 "gcc.trace")
              (λ _, Some [0x0; 0x4; 0x0; 0x40]) globals0)
    as (g' & o & Hsim & Hone & _ & _ & Hrow).
  { repeat split; vm_compute; discriminate. }
  destruct (Hrow ltac:(vm_compute; discriminate) _ eq_refl)
    as (Herr & _ & Hsum & Hr).
  exists g', o. split; [exact Hsim|]. split; [exact Hone|].
  split; [exact Herr|]. split; [|exact Hr].
  apply Hsum. vm_compute. discriminate.
Defined.

(** What a call writes does not depend on the counters it finds. *)
Lemma simulateCache_output_alone p c fs g g' o :
  simulateCache p (cfg_cacheSize c) (cfg_blockSize c) (cfg_associativity c)
    (cfg_traceFile c) fs g = Some (g', o) →
  o = output_alone p fs c.
Proof.
  unfold output_alone, simulateCache.
  destruct (_ =? 0); [done|].
  destruct (_ =? 0); [by intros [= _ <-]|].
  destruct (_ <? 0); [done|].
  destruct (fs (cfg_traceFile c)); [|by intros [= _ <-]].
  destruct (replay _ _ _ _ _ _ _) as [[g1 c1]|]; simpl; [|done].
  by intros [= _ <-].
Qed.

Lemma sweep_outputs p fs cfgs : ∀ g,
  Forall config_runs cfgs →
  ∃ g' o,
    sweep p cfgs fs g = Some (g', o) ∧
    cerr o = concat ((λ c, cerr (output_alone p fs c)) <$> cfgs) ∧
    csv o = concat ((λ c, csv (output_alone p fs c)) <$> cfgs) ∧
    (length (cerr o) + length (csv o) = length cfgs)%nat.
Proof.
  induction cfgs as [|c rest IH]; intros g Hall; simpl.
  - by eexists _, _.
  - apply Forall_cons in Hall as [Hc Hrest].
    destruct (simulateCache_cases p c fs g Hc) as (g1 & o1 & Hsim & Hone & _).
    rewrite Hsim. simpl.
    destruct (IH g1 Hrest) as (g2 & o2 & Hsw & Herr & Hcsv & Hlen).
    rewrite Hsw. simpl. eexists _, _. split; [done|]. simpl.
    rewrite <- (simulateCache_output_alone _ _ _ _ _ _ Hsim).
    rewrite Herr, Hcsv. split; [done|]. split; [done|].
    rewrite !length_app. rewrite <- Herr, <- Hcsv. lia.
Qed.

(** X14. In a sweep, what a call appends to [cerr] and to the CSV file is
    what the same call writes as the first call of the program: the calls
    before it leave nothing behind that it reads, because it resets the
    counters and builds its own cache. *)
Theorem X14_calls_do_not_interfere p fs pre c g :
  Forall config_runs pre → config_runs c →
  ∃ g1 o1 g2 o2,
    sweep p pre fs g = Some (g1, o1) ∧
    sweep p (pre ++ [c]) fs g = Some (g2, o2) ∧
    cerr o2 = cerr o1 ++ cerr (output_alone p fs c) ∧
    csv o2 = csv o1 ++ csv (output_alone p fs c).
Proof.
  intros Hpre Hc.
  destruct (sweep_outputs p fs pre g Hpre) as (g1 & o1 & Hsw1 & Herr1 & Hcsv1 & _).
  destruct (sweep_outputs p fs (pre ++ [c]) g) as (g2 & o2 & Hsw2 & Herr2 & Hcsv2 & _).
  { apply Forall_app. split; [done|]. by apply Forall_singleton. }
  exists g1, o1, g2, o2. split; [done|]. split; [done|].
  rewrite Herr2, Hcsv2, Herr1, Hcsv1.
  rewrite !fmap_app, !concat_app. simpl. by rewrite !app_nil_r.
Qed.

Lemma X14_calls_do_not_interfere_witness :
  ∃ g1 o1 g2 o2,
    sweep TouchOnly [mkConfig 64 4 2 "gcc.trace"; mkConfig 7 4 2 "gcc.trace"]
      (λ _, Some [0x0; 0x4; 0x0]) globals0 = Some (g1, o1) ∧
    sweep TouchOnly
      ([mkConfig 64 4 2 "gcc.trace"; mkConfig 7 4 2 "gcc.trace"]
       ++ [mkConfig 128 4 1 "gcc.trace"])
      (λ _, Some [0x0; 0x4; 0x0]) globals0 = Some (g2, o2) ∧
    cerr o2 = cerr o1 ++ cerr (output_alone TouchOnly (λ _, Some [0x0; 0x4; 0x0])
                                 (mkConfig 128 4 1 "gcc.trace")) ∧
    csv o2 = csv o1 ++ csv (output_alone TouchOnly (λ _, Some [0x0; 0x4; 0x0])
                              (mkConfig 128 4 1 "gcc.trace")).
Proof.
  apply (X14_calls_do_not_interfere TouchOnly (λ _, Some [0x0; 0x4; 0x0])
           [mkConfig 64 4 2 "gcc.trace"; mkConfig 7 4 2 "gcc.trace"]
           (mkConfig 128 4 1 "gcc.trace") globals0).
  - repeat constructor; vm_compute; discriminate.
  - repeat split; vm_compute; discriminate.
Defined.

Lemma config_checks_spec c :
  config_checks c = true →
  config_runs c ∧ config_sets c ≠ 0 ∧ cfg_traceFile c ∈ traceFiles.
Proof.
  unfold config_checks, config_runs. intros H.
  repeat (apply andb_true_iff in H as [H ?]).
  apply negb_true_iff, Z.eqb_neq in H.
  repeat match goal with
    | H : negb _ = true |- _ => apply negb_true_iff, Z.eqb_neq in H
    | H : (_ <=? _) = true |- _ => apply Z.leb_le in H
    | H : bool_decide _ = true |- _ => apply bool_decide_eq_true in H
    end.
  done.
Qed.

Lemma main_configs_checked : Forall (λ c, config_checks c = true) main_configs.
Proof.
  apply Forall_forall. intros c Hc. apply list_elem_of_In in Hc.
  revert c Hc. apply forallb_forall. vm_compute. reflexivity.
Qed.

Lemma outputs_when_files_open p fs cfgs :
  Forall (λ c, config_runs c ∧ config_sets c ≠ 0 ∧
               is_Some (fs (cfg_traceFile c))) cfgs →
  concat ((λ c, cerr (output_alone p fs c)) <$> cfgs) = [] ∧
  row_config <$> concat ((λ c, csv (output_alone p fs c)) <$> cfgs) =
    reported <$> cfgs.
Proof.
  induction 1 as [|c rest (Hruns & Hsets & [trace Hfile]) _ [IHe IHc]]; [done|].
  destruct (simulateCache_cases p c fs globals0 Hruns)
    as (g' & o & Hsim & _ & _ & _ & Hrow).
  destruct (Hrow Hsets trace Hfile) as (Herr & _ & _ & row & Hcsv & Hcfg & _).
  assert (Ho : output_alone p fs c = o) by (unfold output_alone; by rewrite Hsim).
  rewrite !fmap_cons. cbn [concat]. rewrite Ho, Herr, Hcsv, IHe.
  split; [done|]. rewrite fmap_app, IHc. simpl. by rewrite Hcfg.
Qed.

Lemma outputs_when_files_missing p fs cfgs :
  Forall (λ c, config_runs c ∧ config_sets c ≠ 0 ∧
               fs (cfg_traceFile c) = None) cfgs →
  concat ((λ c, csv (output_alone p fs c)) <$> cfgs) = [] ∧
  concat ((λ c, cerr (output_alone p fs c)) <$> cfgs) =
    (λ c, String.app "Unable to open file: " (cfg_traceFile c)) <$> cfgs.
Proof.
  induction 1 as [|c rest (Hruns & Hsets & Hfile) _ [IHc IHe]]; [done|].
  destruct (simulateCache_cases p c fs globals0 Hruns)
    as (g' & o & Hsim & _ & _ & Hno & _).
  destruct (Hno Hsets Hfile) as (_ & Hcsv & Herr).
  assert (Ho : output_alone p fs c = o) by (unfold output_alone; by rewrite Hsim).
  rewrite !fmap_cons. cbn [concat]. rewrite Ho, Herr, Hcsv, IHc, IHe. done.
Qed.

(** X15. [main], once the CSV file is open, returns whatever the five trace
    files hold or whether they exist: none of its 110 calls divides by zero
    or asks for a cache without sets, and each writes one row or one
    message. If every trace file opens there is no message and the 110 rows
    report the 110 configurations in the order of the calls; if none opens
    there is no row and one message per call, naming its file. Under either
    program. *)
Theorem X15_main_writes_one_line_per_call p fs :
  ∃ g o,
    main p fs = Some (g, o) ∧
    (length (cerr o) + length (csv o) = 110)%nat ∧
    ((∀ f, f ∈ traceFiles → is_Some (fs f)) →
     cerr o = [] ∧ row_config <$> csv o = reported <$> main_configs) ∧
    ((∀ f, f ∈ traceFiles → fs f = None) →
     csv o = [] ∧
     cerr o = (λ c, String.app "Unable to open file: " (cfg_traceFile c))
                <$> main_configs).
Proof.
  pose proof main_configs_checked as Hchk.
  assert (Hall : Forall (λ c, config_runs c ∧ config_sets c ≠ 0 ∧
                              cfg_traceFile c ∈ traceFiles) main_configs).
  { eapply Forall_impl; [exact Hchk|]. apply config_checks_spec. }
  destruct (sweep_outputs p fs main_configs globals0)
    as (g & o & Hsw & Herr & Hcsv & Hlen).
  { eapply Forall_impl; [exact Hall|]. by intros c (? & _). }
  exists g, o. split; [done|]. split; [exact Hlen|]. split.
  - intros Hopen. rewrite Herr, Hcsv. apply outputs_when_files_open.
    eapply Forall_impl; [exact Hall|].
    intros c (? & ? & Hf). split; [done|]. split; [done|]. by apply Hopen.
  - intros Hmissing. rewrite Herr, Hcsv. apply outputs_when_files_missing.
    eapply Forall_impl; [exact Hall|].
    intros c (? & ? & Hf). split; [done|]. split; [done|]. by apply Hmissing.
Qed.

(** ** How a set fills, and when it evicts *)

(** X16. The lines of a set become valid in index order, and a miss
    overwrites a valid line only in a set that is full. In every cache of a
    run no valid line comes after an invalid one; and when an access
    overwrites a valid line that held another tag, every line of that set
    was valid. Under either program. *)
Theorem X16_sets_fill_in_index_order p setAssociativity blockSize cacheLineNum trace a :
  1 ≤ setAssociativity → 1 ≤ cacheLineNum →
  let index := Z.to_nat (getIndex a blockSize cacheLineNum) in
  let tg := getTag a blockSize cacheLineNum in
  ∃ g c (t : nat) g' c',
    replay p trace (new_cache cacheLineNum setAssociativity) setAssociativity
      blockSize cacheLineNum globals0 = Some (g, c) ∧
    (∀ (j i i' : nat) l l',
       line_at c j i l → line_at c j i' l' → (i' < i)%nat →
       valid l = true → valid l' = true) ∧
    CacheAccess p a c setAssociativity blockSize cacheLineNum g = Some (g', c') ∧
    line_at c' index t (mkCacheLine true tg (accesscount g)) ∧
    ∀ lt, line_at c index t lt → valid lt = true → tag lt ≠ tg →
          ∀ (i : nat) l, line_at c index i l → valid l = true.
Proof.
  intros Ha Hs index tg.
  destruct (replay_invariant p setAssociativity blockSize cacheLineNum Ha Hs
              (λ tr g c, ∀ (j i i' : nat) l l',
                 line_at c j i l → line_at c j i' l' → (i' < i)%nat →
                 valid l = true → valid l' = true))
    with (trace := trace) as (g & c & Hrun & Hok & Hfill).
  - intros j i i' l l' (m & Hm & Hl) _ _ Hv. unfold new_cache in Hm.
    apply lookup_replicate in Hm as [-> _]. simpl in Hl.
    apply lookup_replicate in Hl as [-> _]. done.
  - clear a index tg. intros tr g c a g' c' Hok IH Hacc j i i' l l' Hl Hl' Hlt Hv.
    destruct (CacheAccess_lines p setAssociativity blockSize cacheLineNum Ha Hs
                a c g Hok)
      as (t & g1 & c1 & Hacc1 & _ & _ & _ & _ & Hnew & _ & Hback & _ & Hcase).
    rewrite Hacc in Hacc1. injection Hacc1 as <- <-.
    destruct (Hback j i' l' Hl') as [(_ & _ & ->)|(Hpos' & l0' & Hl0' & Hv0' & _)];
      [done|].
    rewrite Hv0'.
    destruct (Hback j i l Hl) as [(-> & -> & ->)|(Hpos & l0 & Hl0 & Hv0 & _)].
    + (* the line written: the lines before it were valid *)
      destruct Hcase as [((lt & Hlt0 & Hvt & _) & _)|(_ & (m & Hm & Hvictim) & _)].
      * by apply (IH _ _ _ _ _ Hlt0 Hl0' Hlt).
      * destruct Hvictim as (lt & Hlt0 & Hinv & _).
        destruct Hl0' as (m' & Hm' & Hl0'). rewrite Hm in Hm'. injection Hm' as <-.
        destruct (all_valid_or_not (lines m)) as [Hall|Hsome].
        -- by apply (Hall i' l0').
        -- destruct (Hinv Hsome) as [_ Hbefore]. by apply (Hbefore i' l0').
    + apply (IH _ _ _ _ _ Hl0 Hl0' Hlt). congruence.
  - destruct (CacheAccess_lines p setAssociativity blockSize cacheLineNum Ha Hs
                a c g Hok)
      as (t & g' & c' & Hacc & _ & _ & _ & _ & Hnew & _ & _ & _ & Hcase).
    fold index tg in Hnew, Hcase.
    exists g, c, t, g', c'. split; [done|]. split; [done|]. split; [done|].
    split; [done|].
    intros lt Hlt Hvt Htag i l Hl.
    destruct Hcase as [((lt' & Hlt' & _ & Htg') & _)|(_ & (m & Hm & Hvictim) & _)].
    + rewrite (line_at_inj _ _ _ _ _ Hlt Hlt') in Htag. done.
    + destruct Hvictim as (lt' & Hlt' & Hinv & _).
      assert (lt' = lt) as -> by (apply (line_at_inj c index t); [by exists m|done]).
      destruct Hl as (m' & Hm' & Hl). rewrite Hm in Hm'. injection Hm' as <-.
      destruct (all_valid_or_not (lines m)) as [Hall|Hsome].
      * by apply (Hall i l).
      * destruct (Hinv Hsome) as [Hf _]. congruence.
Qed.

Lemma X16_sets_fill_in_index_order_witness :
  let index := Z.to_nat (getIndex 13 1 1) in
  let tg := getTag 13 1 1 in
  ∃ g c (t : nat) g' c',
    replay FullOrder [10; 11; 10] (new_cache 1 4) 4 1 1 globals0 = Some (g, c) ∧
    (∀ (j i i' : nat) l l',
       line_at c j i l → line_at c j i' l' → (i' < i)%nat →
       valid l = true → valid l' = true) ∧
    CacheAccess FullOrder 13 c 4 1 1 g = Some (g', c') ∧
    line_at c' index t (mkCacheLine true tg (accesscount g)) ∧
    ∀ lt, line_at c index t lt → valid lt = true → tag lt ≠ tg →
          ∀ (i : nat) l, line_at c index i l → valid l = true.
Proof.
  apply (X16_sets_fill_in_index_order FullOrder 4 1 1 [10; 11; 10] 13); lia.
Defined.

(** ** No capacity misses while the working set fits *)

Lemma tags_NoDup ls :
  tags_unique ls → (∀ (i : nat) l, ls !! i = Some l → valid l = true) →
  NoDup (tag <$> ls).
Proof.
  intros Huniq Hall. apply NoDup_alt. intros i j tg Hi Hj.
  apply list_lookup_fmap_Some_1 in Hi as (li & -> & Hli).
  apply list_lookup_fmap_Some_1 in Hj as (lj & Ht & Hlj).
  apply (Huniq i j li lj); eauto.
Qed.

Lemma working_set_fits_prefix blockSize cacheLineNum n tr a :
  working_set_fits blockSize cacheLineNum n (tr ++ [a]) →
  working_set_fits blockSize cacheLineNum n tr.
Proof.
  intros Hfit j tags Hnd Hused. apply (Hfit j tags Hnd).
  intros tg Htg. destruct (Hused tg Htg) as (a0 & Ha0 & Huse).
  exists a0. split; [|done]. apply elem_of_app. by left.
Qed.

Lemma run_keeps_working_set p setAssociativity blockSize cacheLineNum trace :
  1 ≤ setAssociativity → 1 ≤ cacheLineNum →
  ∃ g c,
    replay p trace (new_cache cacheLineNum setAssociativity) setAssociativity
      blockSize cacheLineNum globals0 = Some (g, c) ∧
    cache_ok (Z.to_nat cacheLineNum) (Z.to_nat setAssociativity) c ∧
    (working_set_fits blockSize cacheLineNum (Z.to_nat setAssociativity) trace →
     ∀ a0, a0 ∈ trace →
       ∃ (i : nat) l,
         line_at c (Z.to_nat (getIndex a0 blockSize cacheLineNum)) i l ∧
         valid l = true ∧ tag l = getTag a0 blockSize cacheLineNum).
Proof.
  intros Ha Hs.
  destruct (replay_invariant p setAssociativity blockSize cacheLineNum Ha Hs
              (λ tr g c,
                 resident_from blockSize cacheLineNum tr c ∧
                 (working_set_fits blockSize cacheLineNum
                    (Z.to_nat setAssociativity) tr →
                  ∀ a0, a0 ∈ tr →
                    ∃ (i : nat) l,
                      line_at c (Z.to_nat (getIndex a0 blockSize cacheLineNum)) i l ∧
                      valid l = true ∧ tag l = getTag a0 blockSize cacheLineNum)))
    with (trace := trace) as (g & c & Hrun & Hok & _ & Hkeep).
  - split.
    + intros j i l (m & Hm & Hl) Hv. unfold new_cache in Hm.
      apply lookup_replicate in Hm as [-> _]. simpl in Hl.
      apply lookup_replicate in Hl as [-> _]. done.
    + intros _ a0 Ha0. by apply not_elem_of_nil in Ha0.
  - intros tr g c a g' c' Hok [Hres IH] Hacc.
    destruct (CacheAccess_lines p setAssociativity blockSize cacheLineNum Ha Hs
                a c g Hok)
      as (t & g1 & c1 & Hacc1 & _ & _ & _ & _ & Hnew & _ & Hback & Hfwd & Hcase).
    rewrite Hacc in Hacc1. injection Hacc1 as <- <-.
    set (index := Z.to_nat (getIndex a blockSize cacheLineNum)) in *.
    set (tg := getTag a blockSize cacheLineNum) in *.
    split.
    + intros j i l' Hl' Hv'.
      destruct (Hback j i l' Hl') as [(-> & _ & ->)|(_ & l & Hl & Hv & Htg & _)].
      * exists a. split; [|done].
        apply elem_of_app. right. by apply list_elem_of_singleton.
      * destruct (Hres j i l Hl) as (a0 & Ha0 & Huse); [congruence|].
        exists a0. split; [apply elem_of_app; by left|]. by rewrite Htg.
    + intros Hfit a0 Ha0.
      apply elem_of_app in Ha0 as [Ha0|Ha0].
      2:{ apply list_elem_of_singleton in Ha0 as ->. by eexists t, _. }
      destruct (IH (working_set_fits_prefix _ _ _ _ _ Hfit) a0 Ha0)
        as (i & l & Hl & Hv & Htag).
      set (j0 := Z.to_nat (getIndex a0 blockSize cacheLineNum)) in *.
      destruct (decide (j0 = index ∧ i = t)) as [[Hj ->]|Hpos].
      2:{ destruct (Hfwd j0 i l Hl) as (l' & Hl' & Hv' & Ht' & _).
          { destruct (decide (j0 = index)) as [Hj|Hj]; [right|left; exact Hj].
            intros Hi. apply Hpos. by split. }
          exists i, l'. split; [done|]. split; congruence. }
      rewrite Hj in *.
      destruct Hcase as [((lt & Hlt & _ & Htt) & _)|(Hno & (m & Hm & Hvictim) & _)].
      { rewrite (line_at_inj _ _ _ _ _ Hl Hlt) in Htag.
        exists t, (mkCacheLine true tg (accesscount g)).
        split; [done|]. split; [done|]. simpl. congruence. }
      (* a miss that overwrites a valid line: the set was full, and with
         the new tag that makes one tag too many *)
      exfalso.
      destruct Hvictim as (lt & Hlt & Hinv & _).
      assert (lt = l) as -> by (apply (line_at_inj c index t); [by exists m|done]).
      assert (Hall : ∀ (k : nat) l0, lines m !! k = Some l0 → valid l0 = true).
      { destruct (all_valid_or_not (lines m)) as [Hall|Hsome]; [done|].
        destruct (Hinv Hsome) as [Hf _]. congruence. }
      destruct Hok as [_ Hsets].
      destruct (Forall_lookup_1 _ _ _ _ Hsets Hm) as [Hlen Huniq].
      assert (Hmany : (length (tg :: (tag <$> lines m))
                       ≤ Z.to_nat setAssociativity)%nat).
      { apply (Hfit index).
        - apply NoDup_cons. split; [|by apply tags_NoDup].
          intros Hin. apply list_elem_of_fmap in Hin as (l0 & Ht0 & Hl0).
          apply list_elem_of_lookup in Hl0 as (k & Hk).
          apply (Hno k l0); [by exists m|by eapply Hall|done].
        - intros tg0 Hin. apply elem_of_cons in Hin as [->|Hin].
          + exists a. split; [|done].
            apply elem_of_app. right. by apply list_elem_of_singleton.
          + apply list_elem_of_fmap in Hin as (l0 & -> & Hl0).
            apply list_elem_of_lookup in Hl0 as (k & Hk).
            destruct (Hres index k l0) as (a1 & Ha1 & Huse);
              [by exists m|by eapply Hall|].
            exists a1. split; [apply elem_of_app; by left|done]. }
      simpl in Hmany. rewrite length_fmap, Hlen in Hmany. lia.
  - by exists g, c.
Qed.

(** X17. No capacity misses while the working set fits: if no set is
    addressed with more than [setAssociativity] different tags in the whole
    trace, nothing is ever evicted, and an access to a block that was
    accessed before in the trace is a hit. Under either program. *)
Theorem X17_no_miss_on_a_block_seen_before p setAssociativity blockSize cacheLineNum trace a a0 :
  1 ≤ setAssociativity → 1 ≤ cacheLineNum →
  working_set_fits blockSize cacheLineNum (Z.to_nat setAssociativity) trace →
  a0 ∈ trace →
  getIndex a0 blockSize cacheLineNum = getIndex a blockSize cacheLineNum →
  getTag a0 blockSize cacheLineNum = getTag a blockSize cacheLineNum →
  ∃ g c g' c',
    replay p trace (new_cache cacheLineNum setAssociativity) setAssociativity
      blockSize cacheLineNum globals0 = Some (g, c) ∧
    CacheAccess p a c setAssociativity blockSize cacheLineNum g = Some (g', c') ∧
    outcome_of g g' = Hit ∧ hit g' = to_int (hit g + 1) ∧ miss g' = miss g.
Proof.
  intros Ha Hs Hfit Ha0 Hidx Htag.
  destruct (run_keeps_working_set p setAssociativity blockSize cacheLineNum
              trace Ha Hs) as (g & c & Hrun & Hok & Hkeep).
  destruct (Hkeep Hfit a0 Ha0) as (i & l & Hl & Hv & Ht).
  destruct (CacheAccess_lines p setAssociativity blockSize cacheLineNum Ha Hs
              a c g Hok)
    as (t & g' & c' & Hacc & _ & _ & _ & _ & _ & _ & _ & _ & Hcase).
  exists g, c, g', c'. split; [done|]. split; [done|].
  destruct Hcase as [(_ & Hh & Hm)|(Hno & _)].
  - split; [by apply outcome_of_hit|done].
  - exfalso. rewrite Hidx in Hl. apply (Hno i l Hl Hv). congruence.
Qed.

Lemma X17_no_miss_on_a_block_seen_before_witness :
  ∃ g c g' c',
    replay FullOrder [10; 11; 10; 11] (new_cache 1 2) 2 1 1 globals0 =
      Some (g, c) ∧
    CacheAccess FullOrder 10 c 2 1 1 g = Some (g', c') ∧
    outcome_of g g' = Hit ∧ hit g' = to_int (hit g + 1) ∧ miss g' = miss g.
Proof.
  apply (X17_no_miss_on_a_block_seen_before FullOrder 2 1 1 [10; 11; 10; 11] 10 10);
    [lia | lia | | | reflexivity | reflexivity].
  - intros j tags Hnd Hused.
    change (Z.to_nat 2) with (length [10; 11]).
    apply submseteq_length, NoDup_submseteq; [exact Hnd|].
    intros tg Htg. destruct (Hused tg Htg) as (a & Ha & _ & <-).
    repeat (apply elem_of_cons in Ha as [->|Ha];
            [vm_compute; repeat constructor|]).
    by apply not_elem_of_nil in Ha.
  - repeat constructor.
Defined.

(** ** The recency values of modified.cpp *)

Lemma last_use_snoc blockSize cacheLineNum tr a (j : nat) tg (pos : nat) :
  last_use blockSize cacheLineNum tr j tg pos →
  ¬ uses blockSize cacheLineNum j tg a →
  last_use blockSize cacheLineNum (tr ++ [a]) j tg pos.
Proof.
  intros (a0 & Hlook & Huse & Hlater) Hnot.
  exists a0. split; [by apply lookup_app_l_Some|]. split; [done|].
  intros pos' a' Hlt Hlook'.
  apply lookup_snoc_Some in Hlook' as [[_ Hlook']|[_ <-]]; [|done].
  by apply (Hlater pos' a').
Qed.

Lemma last_use_new blockSize cacheLineNum tr a (j : nat) tg :
  uses blockSize cacheLineNum j tg a →
  last_use blockSize cacheLineNum (tr ++ [a]) j tg (length tr).
Proof.
  intros Huse. exists a. split; [by apply list_lookup_middle|]. split; [done|].
  intros pos' a' Hlt Hlook. apply lookup_lt_Some in Hlook.
  rewrite length_app in Hlook. simpl in Hlook. lia.
Qed.

Lemma accesses_to_le blockSize cacheLineNum j tr :
  (accesses_to blockSize cacheLineNum j tr ≤ length tr)%nat.
Proof.
  unfold accesses_to. induction tr as [|a tr IH]; simpl; [lia|].
  destruct (_ =? _)%nat; simpl; lia.
Qed.

Lemma accesses_to_snoc blockSize cacheLineNum j tr a :
  accesses_to blockSize cacheLineNum j (tr ++ [a]) =
    (accesses_to blockSize cacheLineNum j tr +
     if (Z.to_nat (getIndex a blockSize cacheLineNum) =? j)%nat then 1 else 0)%nat.
Proof.
  unfold accesses_to. rewrite List.filter_app, length_app. simpl.
  destruct (_ =? _)%nat; done.
Qed.

Lemma full_order_stamps setAssociativity blockSize cacheLineNum trace :
  1 ≤ setAssociativity → 1 ≤ cacheLineNum →
  ∃ g c,
    replay FullOrder trace (new_cache cacheLineNum setAssociativity)
      setAssociativity blockSize cacheLineNum globals0 = Some (g, c) ∧
    cache_ok (Z.to_nat cacheLineNum) (Z.to_nat setAssociativity) c ∧
    (Z.of_nat (length trace) ≤ INT_MAX →
     accesscount g = Z.of_nat (length trace) ∧
     ∀ (j i : nat) l, line_at c j i l → valid l = true →
       ∃ pos : nat,
         last_use blockSize cacheLineNum trace j (tag l) pos ∧
         LRUcount l =
           Z.of_nat pos +
           Z.of_nat (accesses_to blockSize cacheLineNum j (drop (S pos) trace))).
Proof.
  intros Ha Hs.
  apply (replay_invariant FullOrder setAssociativity blockSize cacheLineNum Ha Hs
           (λ tr g c,
              Z.of_nat (length tr) ≤ INT_MAX →
              accesscount g = Z.of_nat (length tr) ∧
              ∀ (j i : nat) l, line_at c j i l → valid l = true →
                ∃ pos : nat,
                  last_use blockSize cacheLineNum tr j (tag l) pos ∧
                  LRUcount l =
                    Z.of_nat pos +
                    Z.of_nat (accesses_to blockSize cacheLineNum j
                                (drop (S pos) tr)))).
  - intros _. split; [done|].
    intros j i l (m & Hm & Hl) Hv. unfold new_cache in Hm.
    apply lookup_replicate in Hm as [-> _]. simpl in Hl.
    apply lookup_replicate in Hl as [-> _]. done.
  - intros tr g c a g' c' Hok IH Hacc Hmax.
    rewrite length_app in *. simpl in *.
    destruct IH as [Hac Hst]; [lia|].
    destruct (CacheAccess_lines FullOrder setAssociativity blockSize cacheLineNum
                Ha Hs a c g Hok)
      as (t & g1 & c1 & Hacc1 & _ & _ & _ & Hac1 & _ & _ & Hback & Hfwd & Hcase).
    rewrite Hacc in Hacc1. injection Hacc1 as <- <-.
    set (index := Z.to_nat (getIndex a blockSize cacheLineNum)) in *.
    set (tg := getTag a blockSize cacheLineNum) in *.
    split.
    { rewrite Hac1, Hac. rewrite to_int_succ; lia. }
    intros j i l' Hl' Hv'.
    destruct (Hback j i l' Hl') as [(-> & -> & ->)|(Hpos & l & Hl & Hv & Htg & _)].
    + exists (length tr). split; [by apply last_use_new|].
      simpl. rewrite drop_ge by (rewrite length_app; simpl; lia).
      unfold accesses_to. simpl. lia.
    + rewrite Hv' in Hv. symmetry in Hv.
      destruct (Hst j i l Hl Hv) as (pos & Hlast & Hc).
      assert (Hposlt : (pos < length tr)%nat).
      { destruct Hlast as (a0 & Hlook & _). by eapply lookup_lt_Some. }
      assert (Hnot : ¬ uses blockSize cacheLineNum j (tag l) a).
      { intros [Hj Htag]. fold index in Hj. subst j.
        assert (Hi : i ≠ t) by (destruct Hpos; done).
        destruct Hcase as [((l0 & Hl0 & Hv0 & Ht0) & _)|(Hno & _)].
        - apply Hi.
          eapply (line_at_unique_tag _ _ c _ i t l l0); eauto.
          by rewrite Ht0, <- Htag.
        - by apply (Hno i l Hl Hv). }
      exists pos. rewrite Htg. split; [by apply last_use_snoc|].
      rewrite drop_app_le by lia. rewrite accesses_to_snoc. fold index.
      destruct (Hfwd j i l Hl Hpos) as (l'' & Hl'' & _ & _ & Hsame & Hbump).
      rewrite (line_at_inj _ _ _ _ _ Hl' Hl'').
      destruct (Nat.eqb_spec index j) as [<-|Hj].
      * rewrite (Hbump eq_refl eq_refl Hv), Hc.
        pose proof (accesses_to_le blockSize cacheLineNum index (drop (S pos) tr)).
        rewrite length_drop in *.
        rewrite to_int_succ; lia.
      * rewrite Hsame by (right; left; intros E; by apply Hj). lia.
Qed.

(** X18. In modified.cpp, while the number of accesses fits an [int], the
    [LRUcount] of a valid line is the position in the trace of the last
    access to its tag in its set, plus the number of accesses to that set
    since. *)
Theorem X18_full_order_stamp setAssociativity blockSize cacheLineNum trace :
  1 ≤ setAssociativity → 1 ≤ cacheLineNum →
  Z.of_nat (length trace) ≤ INT_MAX →
  ∃ g c,
    replay FullOrder trace (new_cache cacheLineNum setAssociativity)
      setAssociativity blockSize cacheLineNum globals0 = Some (g, c) ∧
    ∀ (j i : nat) l, line_at c j i l → valid l = true →
      ∃ pos : nat,
        last_use blockSize cacheLineNum trace j (tag l) pos ∧
        LRUcount l =
          Z.of_nat pos +
          Z.of_nat (accesses_to blockSize cacheLineNum j (drop (S pos) trace)).
Proof.
  intros Ha Hs Hmax.
  destruct (full_order_stamps setAssociativity blockSize cacheLineNum trace Ha Hs)
    as (g & c & Hrun & _ & Hst).
  exists g, c. split; [done|]. by apply Hst.
Qed.

Lemma X18_full_order_stamp_witness :
  ∃ g c,
    replay FullOrder [0; 1; 2; 0; 1] (new_cache 2 2) 2 1 2 globals0 =
      Some (g, c) ∧
    ∀ (j i : nat) l, line_at c j i l → valid l = true →
      ∃ pos : nat,
        last_use 1 2 [0; 1; 2; 0; 1] j (tag l) pos ∧
        LRUcount l =
          Z.of_nat pos + Z.of_nat (accesses_to 1 2 j (drop (S pos) [0; 1; 2; 0; 1])).
Proof.
  apply (X18_full_order_stamp 2 1 2 [0; 1; 2; 0; 1]);
    [lia | lia | vm_compute; discriminate].
Defined.

Lemma getIndex_one_set a blockSize : getIndex a blockSize 1 = 0.
Proof. unfold getIndex. simpl. apply Z.land_0_r. Qed.

Lemma accesses_to_one_set blockSize tr :
  accesses_to blockSize 1 0 tr = length tr.
Proof.
  unfold accesses_to. induction tr as [|a tr IH]; simpl; [done|].
  rewrite getIndex_one_set. simpl. by rewrite IH.
Qed.

(** X19. A single set under modified.cpp: while the number of accesses fits
    an [int], all valid lines carry the same [LRUcount] (the number of
    accesses so far, less one), so once the set is full every miss
    overwrites line 0, whatever the order in which the lines were used. *)
Theorem X19_full_order_one_set_overwrites_line_0 setAssociativity blockSize trace a :
  1 ≤ setAssociativity →
  Z.of_nat (length trace) ≤ INT_MAX →
  ∃ g c,
    replay FullOrder trace (new_cache 1 setAssociativity) setAssociativity
      blockSize 1 globals0 = Some (g, c) ∧
    (∀ (i : nat) l, line_at c 0 i l → valid l = true →
       LRUcount l = Z.of_nat (length trace) - 1) ∧
    ((∀ (i : nat) l, line_at c 0 i l →
        valid l = true ∧ tag l ≠ getTag a blockSize 1) →
     ∃ g' c',
       CacheAccess FullOrder a c setAssociativity blockSize 1 g = Some (g', c') ∧
       miss g' = to_int (miss g + 1) ∧
       line_at c' 0 0
         (mkCacheLine true (getTag a blockSize 1) (Z.of_nat (length trace)))).
Proof.
  intros Ha Hmax.
  assert (Hs : 1 ≤ 1) by lia.
  destruct (full_order_stamps setAssociativity blockSize 1 trace Ha Hs)
    as (g & c & Hrun & Hok & Hst).
  destruct (Hst Hmax) as [Hac Hstamps]. clear Hst.
  assert (Hsame : ∀ (i : nat) l, line_at c 0 i l → valid l = true →
                    LRUcount l = Z.of_nat (length trace) - 1).
  { intros i l Hl Hv.
    destruct (Hstamps 0%nat i l Hl Hv) as (pos & (a0 & Hlook & _) & ->).
    apply lookup_lt_Some in Hlook.
    rewrite accesses_to_one_set, length_drop. lia. }
  exists g, c. split; [done|]. split; [done|].
  intros Hfull.
  destruct (CacheAccess_lines FullOrder setAssociativity blockSize 1 Ha Hs a c g Hok)
    as (t & g' & c' & Hacc & _ & _ & Ht & _ & Hnew & _ & _ & _ & Hcase).
  rewrite getIndex_one_set in Hnew, Hcase. simpl in Hnew, Hcase.
  destruct Hcase as [((l & Hl & Hv & Htg) & _)|(_ & (m & Hm & Hvictim) & _ & Hmi)].
  { exfalso. by apply (Hfull t l Hl). }
  exists g', c'. split; [done|]. split; [done|].
  rewrite <- Hac.
  destruct Hvictim as (lt & Hlt & _ & Hmin).
  destruct Hmin as [_ Hfirst].
  { intros j l Hl. by apply (Hfull j l); exists m. }
  destruct t as [|t]; [done|]. exfalso.
  destruct (lookup_lt_is_Some_2 (lines m) 0) as [l0 Hl0].
  { apply lookup_lt_Some in Hlt. lia. }
  specialize (Hfirst 0%nat l0 ltac:(lia) Hl0).
  unfold recency_u32 in Hfirst.
  rewrite (Hsame (S t) lt), (Hsame 0%nat l0) in Hfirst; try lia.
  - by exists m.
  - by apply (Hfull 0%nat l0); exists m.
  - by exists m.
  - by apply (Hfull (S t) lt); exists m.
Qed.

Lemma X19_full_order_one_set_overwrites_line_0_witness :
  ∃ g' c',
    CacheAccess FullOrder 13
      [ {| lines := [mkCacheLine true 10 3; mkCacheLine true 11 3;
                     mkCacheLine true 12 3] |} ]
      3 1 1 {| hit := 1; miss := 3; accesscount := 4 |} = Some (g', c') ∧
    miss g' = to_int (3 + 1) ∧
    line_at c' 0 0 (mkCacheLine true 13 4).
Proof.
  destruct (X19_full_order_one_set_overwrites_line_0 3 1 [10; 11; 12; 10] 13)
    as (g & c & Hrun & _ & Hmiss); [lia | vm_compute; discriminate |].
  vm_compute in Hrun. injection Hrun as <- <-.
  apply Hmiss.
  intros i l (m & Hm & Hl). vm_compute in Hm. injection Hm as <-.
  destruct i as [|[|[|i]]]; simpl in Hl; try discriminate;
    injection Hl as <-; (split; [reflexivity | vm_compute; discriminate]).
Defined.
